(** * Quiz application: submission, scoring and leaderboard

    A shallow embedding of the quiz server (the HTTP handler of
    [/api/quiz], [/api/leaderboard] and [/api/submit]) and of the quiz
    client's navigation logic, with the properties of the written
    specification stated and settled against it.

    Conventions of the embedding.
    - A JavaScript number is an exact rational ([Q]); numeric comparison is
      [Qeq]/[Qlt], never Leibniz equality.  [NaN] and the infinities are not
      values of the model, and rounding to the nearest double is left out.
      Integers the handler computes itself (scores, counts, instants in
      milliseconds) are in [Z].
    - A JavaScript string is its list of UTF-16 code units.
    - A parsed JSON document is a value of [json]; [undefined] is the
      absence of a value ([None]).
    - The leaderboard file is the list of its entries, each with a string
      for a name, numbers for the score and the question count, a number or
      null for the time and a valid date; reading returns the list, writing
      replaces it.
    - The question bank, [Number] on strings and [Math.random] are
      parameters. *)

From Stdlib Require Import ZArith QArith Qround Lqa Lia List Sorted Permutation Bool String Ascii.
From stdpp Require Import base list sorting.
Import ListNotations.

Local Open Scope Z_scope.

(** ** JavaScript values *)

Definition jsString := list N.

(** Code units of an ASCII literal. *)
Definition str (s : string) : jsString :=
  map N_of_ascii (list_ascii_of_string s).

#[local] Unset Elimination Schemes.
Inductive json :=
| JNull
| JBool (b : bool)
| JNum (n : Q)
| JStr (s : jsString)
| JArr (items : list json)
| JObj (props : list (string * json)).
#[local] Set Elimination Schemes.

(** Own property of a parsed object; the first binding of the key. *)
Fixpoint lookupProp (props : list (string * json)) (key : string) : option json :=
  match props with
  | [] => None
  | (k, v) :: rest => if String.eqb k key then Some v else lookupProp rest key
  end.

(** [value.key] for the keys the handler reads ([playerName], [answers],
    [totalTime], [questionId], [choiceIndex]): reading a property of [null]
    throws (outer [None]); arrays, strings, numbers and booleans have no such
    property (inner [None], that is [undefined]). *)
Definition getProp (value : json) (key : string) : option (option json) :=
  match value with
  | JNull => None
  | JObj props => Some (lookupProp props key)
  | _ => Some None
  end.

(** Truthiness of a possibly undefined JSON value. *)
Definition truthy (v : option json) : bool :=
  match v with
  | None => false
  | Some JNull => false
  | Some (JBool b) => b
  | Some (JNum n) => negb (Qeq_bool n 0)
  | Some (JStr s) => match s with [] => false | _ => true end
  | Some (JArr _) => true
  | Some (JObj _) => true
  end.

Definition Qlt_bool (x y : Q) : bool := negb (Qle_bool y x).

(** [Math.trunc]: rounding towards zero. *)
Definition trunc (x : Q) : Z := Z.quot (Qnum x) (Z.pos (Qden x)).

(** [Number(x.toFixed(2))] for [x >= 0]: the nearest multiple of 1/100, the
    larger one on a tie; from 10^21 on, [toFixed] prints the number itself. *)
Definition toFixed2 (x : Q) : Q :=
  if Qle_bool (inject_Z (10 ^ 21)) x then x
  else Qmake (Qfloor (x * inject_Z 100 + (1 # 2))) 100.

(** ** Strings: [replace(/\s+/g, ' ')], [trim], [slice] *)

Definition space : N := 32%N.

(** The code units matched by [\s] (and stripped by [trim]). *)
Definition isWhiteSpace (c : N) : bool :=
  ((9 <=? c) && (c <=? 13) || (c =? 32) || (c =? 160) || (c =? 5760)
   || (8192 <=? c) && (c <=? 8202) || (c =? 8232) || (c =? 8233)
   || (c =? 8239) || (c =? 8287) || (c =? 12288) || (c =? 65279))%N.

(** [s.replace(/\s+/g, ' ')]: every maximal run of white space becomes one
    space.  [inRun] tells that the previous code unit was white space. *)
Fixpoint replaceRuns (inRun : bool) (s : jsString) : jsString :=
  match s with
  | [] => []
  | c :: rest =>
      if isWhiteSpace c
      then if inRun then replaceRuns true rest else space :: replaceRuns true rest
      else c :: replaceRuns false rest
  end.

Fixpoint trimStart (s : jsString) : jsString :=
  match s with
  | [] => []
  | c :: rest => if isWhiteSpace c then trimStart rest else s
  end.

Fixpoint trimEnd (s : jsString) : jsString :=
  match s with
  | [] => []
  | c :: rest =>
      match trimEnd rest with
      | [] => if isWhiteSpace c then [] else [c]
      | t => c :: t
      end
  end.

Definition trim (s : jsString) : jsString := trimStart (trimEnd s).

Definition sanitizeName (name : jsString) : jsString :=
  take 32 (trim (replaceRuns false name)).

(** ** Leaderboard entries and ranking *)

Record Entry := {
  name : jsString;
  score : Z;
  totalQuestions : Z;
  totalTime : option Q;      (* [None] is [null] *)
  completedAt : Z            (* the instant the ISO string denotes, in ms *)
}.

(** A time used as an operand of [-]: [null] converts to 0. *)
Definition timeNumber (t : option Q) : Q :=
  match t with Some q => q | None => 0%Q end.

(** [a === b] on two times. *)
Definition sameTime (a b : option Q) : bool :=
  match a, b with
  | None, None => true
  | Some x, Some y => Qeq_bool x y
  | _, _ => false
  end.

(** The comparator of [sortLeaderboard]. *)
Definition compareEntries (a b : Entry) : Q :=
  if negb (score b =? score a) then inject_Z (score b - score a)
  else if negb (sameTime (totalTime a) (totalTime b))
       then (timeNumber (totalTime a) - timeNumber (totalTime b))%Q
       else inject_Z (completedAt a - completedAt b).

(** [Array.prototype.sort] is a stable sort; it is modelled by the stable
    insertion sort, which yields the one order the language defines whenever
    the comparator is consistent on the elements.  [x] goes in front of the
    first element it must precede. *)
Fixpoint insertSorted {A} (cmp : A -> A -> Q) (x : A) (l : list A) : list A :=
  match l with
  | [] => [x]
  | y :: rest =>
      if Qlt_bool (cmp x y) 0 then x :: l else y :: insertSorted cmp x rest
  end.

Definition sort {A} (cmp : A -> A -> Q) (l : list A) : list A :=
  fold_left (fun acc x => insertSorted cmp x acc) l [].

Definition sortLeaderboard (entries : list Entry) : list Entry :=
  take 25 (sort compareEntries entries).

(** The merge of [POST /api/submit]: [leaderboard.findIndex] by name, then
    replace in place or push.  [totalTime] is the time as compared (before
    [toFixed]); [newEntry] carries the rounded one. *)
Definition mergeEntry (leaderboard : list Entry) (sc : Z) (totalTime_ : option Q)
    (newEntry : Entry) : list Entry :=
  match list_find (fun entry => name entry = name newEntry) leaderboard with
  | Some (existingIndex, current) =>
      let isBetterScore := score current <? sc in
      let isFaster :=
        (sc =? score current) &&
        match totalTime_, totalTime current with
        | Some t, Some c => Qlt_bool t c
        | _, _ => false
        end in
      if isBetterScore || isFaster
      then <[existingIndex := newEntry]> leaderboard
      else leaderboard
  | None => leaderboard ++ [newEntry]
  end.

(** ** The server *)

Record Question := {
  id : Z;
  question : jsString;
  choices : list jsString;
  answer : Z
}.

Inductive ErrorMessage :=
| NameRequired        (* the player name is missing *)
| AnswersMissing      (* the answer data is insufficient *)
| UnknownQuestion     (* an answer to a question that does not exist *)
| BadFormat.          (* the submitted data is malformed *)

Inductive SubmitResponse :=
| Ok200 (sc total : Z) (leaderboard : list Entry)
| Error400 (error : ErrorMessage).

Record QuizResponse := { quizQuestions : list Question; quizTotal : Z }.

(** A [Map] from question id to choice index, in insertion order. *)
Definition AnswerMap := list (Q * Q).

Definition mapHas (m : AnswerMap) (key : Q) : bool :=
  existsb (fun kv => Qeq_bool (fst kv) key) m.

Definition mapGet (m : AnswerMap) (key : Q) : option Q :=
  snd <$> find (fun kv => Qeq_bool (fst kv) key) m.

Fixpoint mapSet (m : AnswerMap) (key value : Q) : AnswerMap :=
  match m with
  | [] => [(key, value)]
  | (k, v) :: rest =>
      if Qeq_bool k key then (k, value) :: rest else (k, v) :: mapSet rest key value
  end.

(** [array.slice(0, n)]. *)
Definition slice0 {A} (n : Z) (l : list A) : list A :=
  if n <? 0 then take (length l - Z.to_nat (- n)) l else take (Z.to_nat n) l.

(** [[copy[i], copy[j]] = [copy[j], copy[i]]] for two indices in range. *)
Definition swap {A} (copy : list A) (i j : nat) : list A :=
  match copy !! i, copy !! j with
  | Some a, Some b => <[j := a]> (<[i := b]> copy)
  | _, _ => copy
  end.

Section Server.

(** The question bank ([./data/questions]), in file order. *)
Variable questions : list Question.

(** [Number(text)] on a non-empty string: the number it denotes, or [None]
    when the result is [NaN] or infinite. *)
Variable Number : jsString -> option Q.

(** The successive results of [Math.random()]. *)
Variable random : nat -> Q.

Definition DEFAULT_QUESTION_COUNT : Z := 10.

Definition questionIdSet_has (key : Q) : bool :=
  existsb (fun q => Qeq_bool (inject_Z (id q)) key) questions.

(** [questionMap.get]: of several questions with one id, the last one. *)
Definition questionMap_get (key : Q) : option Question :=
  find (fun q => Qeq_bool (inject_Z (id q)) key) (rev questions).

(** One round of the [forEach] of [normalizeAnswers]. *)
Definition normalizeEntry (map : AnswerMap) (entry : json) (index : nat) : AnswerMap :=
  match entry with
  | JObj props =>
      match lookupProp props "questionId", lookupProp props "choiceIndex" with
      | Some (JNum questionId), Some (JNum choiceIndex) =>
          if negb (questionIdSet_has questionId) || mapHas map questionId
          then map
          else mapSet map questionId choiceIndex
      | _, _ => map
      end
  | JNum n =>
      match questions !! index with
      | Some q =>
          let questionId := inject_Z (id q) in
          if negb (questionIdSet_has questionId) || mapHas map questionId
          then map
          else mapSet map questionId n
      | None => map
      end
  | _ => map
  end.

Fixpoint forEachFrom (index : nat) (rawAnswers : list json) (map : AnswerMap) : AnswerMap :=
  match rawAnswers with
  | [] => map
  | entry :: rest => forEachFrom (S index) rest (normalizeEntry map entry index)
  end.

Definition normalizeAnswers (rawAnswers : option json) : option AnswerMap :=
  match rawAnswers with
  | Some (JArr items) =>
      match items with
      | [] => None
      | _ =>
          let map := forEachFrom 0 items [] in
          if negb (length map =? length items)%nat then None else Some map
      end
  | _ => None
  end.

(** The loop of [shuffleQuestions]: [i] runs from [length - 1] down to 1,
    [k] counts the calls of [Math.random]. *)
Fixpoint shuffleLoop {A} (i k : nat) (copy : list A) : list A :=
  match i with
  | O => copy
  | S i' =>
      let j := Z.to_nat (Qfloor (random k * inject_Z (Z.of_nat i + 1))) in
      shuffleLoop i' (S k) (swap copy i j)
  end.

Definition shuffleQuestions (bank : list Question) : list Question :=
  shuffleLoop (length bank - 1) 0 bank.

Definition clampQuestionCount (value : option jsString) : Z :=
  match value with
  | None => DEFAULT_QUESTION_COUNT
  | Some [] => DEFAULT_QUESTION_COUNT
  | Some text =>
      match Number text with
      | None => DEFAULT_QUESTION_COUNT
      | Some parsed =>
          let truncated := trunc parsed in
          if truncated <? 1 then 1
          else if Z.of_nat (length questions) <? truncated
               then Z.of_nat (length questions)
               else truncated
      end
  end.

(** [GET /api/quiz?limit=...]; [limitParam] is [searchParams.get('limit')]. *)
Definition handleQuiz (limitParam : option jsString) : QuizResponse :=
  let limit := clampQuestionCount limitParam in
  let selected := slice0 limit (shuffleQuestions questions) in
  {| quizQuestions := selected; quizTotal := Z.of_nat (length selected) |}.


(** The scoring [reduce]. *)
Definition scoreAnswers (answeredQuestions : list Question) (answerMap : AnswerMap) : Z :=
  fold_left
    (fun acc q =>
       match mapGet answerMap (inject_Z (id q)) with
       | None => acc
       | Some selected =>
           acc + (if Qeq_bool (inject_Z (answer q)) selected then 1 else 0)
       end)
    answeredQuestions 0.

(** [Array.from(answerMap.keys()).map(id => questionMap.get(id))], or [None]
    when some element is undefined. *)
Definition answeredQuestionsOf (answerMap : AnswerMap) : option (list Question) :=
  mapM (fun kv => questionMap_get (fst kv)) answerMap.

(** [typeof payload.totalTime === 'number' && payload.totalTime >= 0
    ? Number(payload.totalTime) : null]. *)
Definition submittedTime (payload : json) : option Q :=
  match default None (getProp payload "totalTime") with
  | Some (JNum t) => if Qle_bool 0 t then Some t else None
  | _ => None
  end.

(** [payload.playerName || '']. *)
Definition nameArgument (playerName : option json) : option json :=
  if truthy playerName then playerName else Some (JStr []).

(** The [newEntry] object; [completedAt] is [new Date().toISOString()]. *)
Definition newEntryOf (name_ : jsString) (sc totalQuestions_ : Z)
    (totalTime_ : option Q) (now : Z) : Entry :=
  {| name := name_;
     score := sc;
     totalQuestions := totalQuestions_;
     totalTime := toFixed2 <$> totalTime_;
     completedAt := now |}.

(** [POST /api/submit].  [parsed] is the outcome of [JSON.parse(body || '{}')]
    ([None] when it throws), [stored] the leaderboard file, [now] the clock
    at [new Date()].  The result is the response and the file afterwards.
    Every exception inside the handler ends in the [catch]: 400, nothing
    written. *)
Definition handleSubmit (stored : list Entry) (parsed : option json) (now : Z)
    : SubmitResponse * list Entry :=
  match parsed with
  | None => (Error400 BadFormat, stored)
  | Some payload =>
      match getProp payload "playerName" with
      | None => (Error400 BadFormat, stored)
      | Some playerName =>
          match nameArgument playerName with
          | Some (JStr rawName) =>
              let name_ := sanitizeName rawName in
              let answerMap := normalizeAnswers (default None (getProp payload "answers")) in
              let totalTime_ := submittedTime payload in
              match name_ with
              | [] => (Error400 NameRequired, stored)
              | _ =>
                  match answerMap with
                  | None => (Error400 AnswersMissing, stored)
                  | Some [] => (Error400 AnswersMissing, stored)
                  | Some answerMap =>
                      match answeredQuestionsOf answerMap with
                      | None => (Error400 UnknownQuestion, stored)
                      | Some answeredQuestions =>
                          let totalQuestions_ := Z.of_nat (length answeredQuestions) in
                          let sc := scoreAnswers answeredQuestions answerMap in
                          let newEntry :=
                            newEntryOf name_ sc totalQuestions_ totalTime_ now in
                          let leaderboard := mergeEntry stored sc totalTime_ newEntry in
                          let sorted := sortLeaderboard leaderboard in
                          (Ok200 sc totalQuestions_ sorted, sorted)
                      end
                  end
              end
          | _ => (Error400 BadFormat, stored)
          end
      end
  end.

(** A request to [/api/submit] with the clock at its arrival, and the file
    after a sequence of them, handled one after the other. *)
Record Submission := { body : option json; clock : Z }.

Definition runSubmissions (stored : list Entry) (requests : list Submission) : list Entry :=
  fold_left (fun file r => snd (handleSubmit file (body r) (clock r))) requests stored.

End Server.

(** ** The client: navigation through the quiz *)

Module Client.

Inductive Status := correct | incorrect.

Record Feedback := { status : Status; message : jsString }.

Inductive NextLabel := ShowResults | NextQuestion.

(** The part of [state] and of the page that navigation reads and writes;
    [nextDisabled] and [prevDisabled] are the [disabled] flags of the two
    buttons.  An array slot holds [Some v] for a number or an object and
    [None] for [null] (or a hole). *)
Record State := {
  originalQuestions : list Question;
  questions : list Question;
  answers : list (option nat);
  feedback : list (option Feedback);
  currentIndex : nat;
  nextDisabled : bool;
  prevDisabled : bool;
  nextLabel : NextLabel
}.

(** What a click handler sets off besides the state change. *)
Inductive Effect := NoEffect | SubmitAnswers.

(** [array[i] = v]; past the end the array grows, with holes in between. *)
Definition arraySet {A} (array : list (option A)) (i : nat) (v : A) : list (option A) :=
  if (i <? length array)%nat then <[i := Some v]> array
  else array ++ replicate (i - length array) None ++ [Some v].

(** [typeof state.answers[state.currentIndex] === 'number']. *)
Definition answered (s : State) : bool :=
  match answers s !! currentIndex s with
  | Some (Some _) => true
  | _ => false
  end.

(** [state.currentIndex === state.questions.length - 1]. *)
Definition atLast (s : State) : bool :=
  Z.of_nat (currentIndex s) =? Z.of_nat (length (questions s)) - 1.

Definition updateNavigationButtons (s : State) : State :=
  {| originalQuestions := originalQuestions s;
     questions := questions s;
     answers := answers s;
     feedback := feedback s;
     currentIndex := currentIndex s;
     nextDisabled := negb (answered s);
     prevDisabled := (currentIndex s =? 0)%nat;
     nextLabel := if atLast s then ShowResults else NextQuestion |}.

(** The two messages of [handleChoiceSelection], as code units. *)
Definition correctMessage : jsString :=
  [27491; 35299; 12391; 12377; 65281]%N.

Definition incorrectMessage (correctChoiceText : jsString) : jsString :=
  [19981; 27491; 35299; 8230; 32; 27491; 35299; 12399; 12300]%N
  ++ correctChoiceText ++ [12301; 12391; 12377; 12290]%N.

(** [question.choices[question.answer]] inside the template literal. *)
Definition choiceText (q : Question) : jsString :=
  if answer q <? 0 then str "undefined"
  else default (str "undefined") (choices q !! Z.to_nat (answer q)).

Definition handleChoiceSelection (s : State) (selectedIndex : nat) : State :=
  match questions s !! currentIndex s with
  | None => s
  | Some q =>
      let isCorrect := Z.of_nat selectedIndex =? answer q in
      updateNavigationButtons
        {| originalQuestions := originalQuestions s;
           questions := questions s;
           answers := arraySet (answers s) (currentIndex s) selectedIndex;
           feedback :=
             arraySet (feedback s) (currentIndex s)
               {| status := if isCorrect then correct else incorrect;
                  message := if isCorrect then correctMessage
                             else incorrectMessage (choiceText q) |};
           currentIndex := currentIndex s;
           nextDisabled := nextDisabled s;
           prevDisabled := prevDisabled s;
           nextLabel := nextLabel s |}
  end.

Definition renderQuestion (s : State) : State :=
  match questions s !! currentIndex s with
  | None => s
  | Some _ => updateNavigationButtons s
  end.

Definition setIndex (s : State) (i : nat) : State :=
  {| originalQuestions := originalQuestions s;
     questions := questions s;
     answers := answers s;
     feedback := feedback s;
     currentIndex := i;
     nextDisabled := nextDisabled s;
     prevDisabled := prevDisabled s;
     nextLabel := nextLabel s |}.

(** [prepareNewQuiz]; [random] is the run of [Math.random] it consumes. *)
Definition prepareNewQuiz (random : nat -> Q) (s : State) : State :=
  match originalQuestions s with
  | [] =>
      {| originalQuestions := originalQuestions s;
         questions := [];
         answers := [];
         feedback := [];
         currentIndex := 0;
         nextDisabled := nextDisabled s;
         prevDisabled := prevDisabled s;
         nextLabel := nextLabel s |}
  | _ =>
      let shuffled := shuffleQuestions random (originalQuestions s) in
      renderQuestion
        {| originalQuestions := originalQuestions s;
           questions := shuffled;
           answers := replicate (length shuffled) None;
           feedback := replicate (length shuffled) None;
           currentIndex := 0;
           nextDisabled := nextDisabled s;
           prevDisabled := prevDisabled s;
           nextLabel := nextLabel s |}
  end.

(** The click listener of the next button. *)
Definition onNextClick (s : State) : State * Effect :=
  if atLast s then (s, SubmitAnswers)
  else (renderQuestion (setIndex s (currentIndex s + 1)), NoEffect).

(** The click listener of the previous button. *)
Definition onPrevClick (s : State) : State :=
  if (currentIndex s =? 0)%nat then s
  else renderQuestion (setIndex s (currentIndex s - 1)).

(** A click on a button: a disabled button dispatches no click event. *)
Definition advance (s : State) : State * Effect :=
  if nextDisabled s then (s, NoEffect) else onNextClick s.

Definition retreat (s : State) : State :=
  if prevDisabled s then s else onPrevClick s.

Definition selectChoice (s : State) (choiceIndex : nat) : State :=
  handleChoiceSelection s choiceIndex.

Inductive Event :=
| Select (choiceIndex : nat)
| Next
| Previous
| Restart (random : nat -> Q).

Definition dispatch (s : State) (e : Event) : State :=
  match e with
  | Select choiceIndex => selectChoice s choiceIndex
  | Next => fst (advance s)
  | Previous => retreat s
  | Restart random => prepareNewQuiz random s
  end.

(** The states of a session: a quiz prepared from a loaded, non-empty
    question list, followed by any clicks. *)
Inductive session : State -> Prop :=
| session_start random s :
    originalQuestions s <> [] -> session (prepareNewQuiz random s)
| session_step s e : session s -> session (dispatch s e).

(** What holds in every state of a session: the position is inside the
    question set and the next button is disabled exactly when the current
    question has no answer. *)
Definition inSession (s : State) : Prop :=
  originalQuestions s <> [] /\
  (currentIndex s < length (questions s))%nat /\
  nextDisabled s = negb (answered s) /\
  prevDisabled s = (currentIndex s =? 0)%nat.

End Client.

(** ** The vocabulary of the specification *)

(** [a] may stand in front of [b] in the ranking: a higher score; at equal
    scores a smaller time, a null time counting as 0; at identical times
    (both null, or the same number) a completion that is not later.  A null
    time and a recorded 0 tie, whatever the completion instants. *)
Definition ranksBefore (a b : Entry) : Prop :=
  score b < score a \/
  (score a = score b /\
   ((timeNumber (totalTime a) < timeNumber (totalTime b))%Q \/
    (sameTime (totalTime a) (totalTime b) = false /\
     (timeNumber (totalTime a) == timeNumber (totalTime b))%Q) \/
    (sameTime (totalTime a) (totalTime b) = true /\
     completedAt a <= completedAt b))).

(** [a] must stand in front of [b]. *)
Definition strictlyBefore (a b : Entry) : Prop :=
  score b < score a \/
  (score a = score b /\
   ((timeNumber (totalTime a) < timeNumber (totalTime b))%Q \/
    (sameTime (totalTime a) (totalTime b) = true /\
     completedAt a < completedAt b))).

(** The shape of the persisted leaderboard. *)
Definition conforming (leaderboard : list Entry) : Prop :=
  (length leaderboard <= 25)%nat /\ StronglySorted ranksBefore leaderboard.






(** The name a payload is filed under. *)
Definition storedName (payload : json) : jsString :=
  match getProp payload "playerName" with
  | Some playerName =>
      match nameArgument playerName with
      | Some (JStr rawName) => sanitizeName rawName
      | _ => []
      end
  | None => []
  end.








(** Two entries of an answer map are for different questions. *)
Definition keyDiffers (a b : Q * Q) : Prop := ~ (fst a == fst b)%Q.

(** The question of an entry is not in the map yet. *)
Definition unmapped (map : AnswerMap) (kv : Q * Q) : bool := negb (mapHas map (fst kv)).

Fixpoint sumZ (l : list Z) : Z :=
  match l with [] => 0 | x :: rest => x + sumZ rest end.

Section Vocabulary.

Variable questions : list Question.
Variable Number : jsString -> option Q.

(** The count a [limit] parameter asks for, 10 when it is absent, empty or
    not a finite number, and that count clamped to [1, bankSize]. *)
Definition requestedCount (limitParam : option jsString) : Z :=
  match limitParam with
  | None => 10
  | Some [] => 10
  | Some text =>
      match Number text with
      | None => 10
      | Some parsed => trunc parsed
      end
  end.

Definition effectiveCount (limitParam : option jsString) : Z :=
  Z.max 1 (Z.min (requestedCount limitParam) (Z.of_nat (length questions))).

(** What a submitted entry denotes: a question id of the bank and a choice
    index.  A pair [{questionId, choiceIndex}] of numbers denotes itself when
    the id is in the bank; a bare number at position [index] denotes the
    choice for the bank's question at that position. *)
Definition entryRef (entry : json) (index : nat) : option (Q * Q) :=
  match entry with
  | JObj props =>
      match lookupProp props "questionId", lookupProp props "choiceIndex" with
      | Some (JNum questionId), Some (JNum choiceIndex) =>
          if existsb (fun q => Qeq_bool (inject_Z (id q)) questionId) questions
          then Some (questionId, choiceIndex)
          else None
      | _, _ => None
      end
  | JNum n =>
      match questions !! index with
      | Some q => Some (inject_Z (id q), n)
      | None => None
      end
  | _ => None
  end.

(** The valid entries of a submission, in order. *)
Fixpoint validRefs (index : nat) (items : list json) : list (Q * Q) :=
  match items with
  | [] => []
  | entry :: rest =>
      match entryRef entry index with
      | Some r => r :: validRefs (S index) rest
      | None => validRefs (S index) rest
      end
  end.

(** One entry per question id: the first of each id. *)
Fixpoint firstPerKey (refs : list (Q * Q)) : list (Q * Q) :=
  match refs with
  | [] => []
  | r :: rest =>
      r :: List.filter (fun kv => negb (Qeq_bool (fst kv) (fst r))) (firstPerKey rest)
  end.

(** The number of distinct valid entries of a submission. *)
Definition distinctValid (items : list json) : nat :=
  length (firstPerKey (validRefs 0 items)).

(** The question id an entry of the wire format carries. *)
Definition carriedId (entry : json) : option Q :=
  match entry with
  | JObj props =>
      match lookupProp props "questionId" with
      | Some (JNum questionId) => Some questionId
      | _ => None
      end
  | _ => None
  end.

(** The bank question an entry refers to, with the choice made for it. *)
Definition referenced (entry : json) (index : nat) : option (Question * Q) :=
  match entry with
  | JObj props =>
      match lookupProp props "questionId", lookupProp props "choiceIndex" with
      | Some (JNum questionId), Some (JNum choiceIndex) =>
          match find (fun q => Qeq_bool (inject_Z (id q)) questionId) questions with
          | Some q => Some (q, choiceIndex)
          | None => None
          end
      | _, _ => None
      end
  | JNum n =>
      match questions !! index with
      | Some q => Some (q, n)
      | None => None
      end
  | _ => None
  end.

(** One point for an entry whose choice is the answer of its question. *)
Definition awarded (entry : json) (index : nat) : Z :=
  match referenced entry index with
  | Some (q, choiceIndex) =>
      if Qeq_bool (inject_Z (answer q)) choiceIndex then 1 else 0
  | None => 0
  end.

Fixpoint pointsFrom (index : nat) (items : list json) : Z :=
  match items with
  | [] => 0
  | entry :: rest => awarded entry index + pointsFrom (S index) rest
  end.

(** The point an entry of the answer map earns. *)
Definition contribution (kv : Q * Q) : Z :=
  match questionMap_get questions (fst kv) with
  | Some q => if Qeq_bool (inject_Z (answer q)) (snd kv) then 1 else 0
  | None => 0
  end.

End Vocabulary.

(** ** Sample data *)

(** A bank of one question and a bank of three. *)
Definition bank1 : list Question :=
  [ {| id := 1; question := str "q"; choices := [str "a"; str "b"]; answer := 0 |} ].

(** The body of a submission, with or without a time. *)
Definition payloadOf (player : string) (answers_ : list json) (time : option Q) : json :=
  JObj ([("playerName"%string, JStr (str player)); ("answers"%string, JArr answers_)]
        ++ match time with Some t => [("totalTime"%string, JNum t)] | None => [] end).

(** An answer of the wire format. *)
Definition pick (questionId choiceIndex : Z) : json :=
  JObj [("questionId"%string, JNum (inject_Z questionId));
        ("choiceIndex"%string, JNum (inject_Z choiceIndex))].

(** A full board: 25 players with one point each. *)
Definition fullBoard : list Entry :=
  map (fun k =>
         {| name := [N.of_nat k + 200]%N; score := 1; totalQuestions := 1;
            totalTime := Some 1%Q; completedAt := Z.of_nat k |})
      (seq 0 25).

Definition entry (player : string) (sc total : Z) (time : option Q) (at_ : Z) : Entry :=
  {| name := str player; score := sc; totalQuestions := total;
     totalTime := time; completedAt := at_ |}.

Definition bank3 : list Question :=
  [ {| id := 1; question := str "q1"; choices := [str "a"; str "b"; str "c"]; answer := 1 |};
    {| id := 2; question := str "q2"; choices := [str "a"; str "b"]; answer := 0 |};
    {| id := 3; question := str "q3"; choices := [str "a"; str "b"]; answer := 1 |} ].

(** The merge example of the specification: "A" holds 3 points in 40 s and
    sends 3 points in 35 s. *)
Definition boardA : list Entry :=
  [ {| name := str "A"; score := 3; totalQuestions := 3; totalTime := Some 40%Q; completedAt := 5 |} ].

Definition fasterA : json :=
  payloadOf "A" [pick 1 1; pick 2 0; pick 3 1] (Some 35%Q).

Definition entryFasterA : Entry :=
  {| name := str "A"; score := 3; totalQuestions := 3; totalTime := Some (3500 # 100); completedAt := 9 |}.

Definition sampleRequests : list Submission :=
  [ {| body := Some fasterA; clock := 9 |};
    {| body := Some (payloadOf "B" [JNum 1; JNum 1] None); clock := 10 |};
    {| body := None; clock := 11 |} ].

(** The page after the questions were loaded, and the first question of a
    quiz. *)
Definition startState : Client.State :=
  {| Client.originalQuestions := bank3;
     Client.questions := [];
     Client.answers := [];
     Client.feedback := [];
     Client.currentIndex := 0;
     Client.nextDisabled := false;
     Client.prevDisabled := false;
     Client.nextLabel := Client.NextQuestion |}.

Definition firstQuestion : Client.State :=
  Client.prepareNewQuiz (fun _ => 0%Q) startState.

Definition duplicateAnswers : list json := [pick 1 1; pick 1 0].

Definition duplicatePayload : json := payloadOf "A" duplicateAnswers (Some 35%Q).

Definition twoAnswers : list json := [pick 3 1; pick 1 0].

Definition twoAnswersB : json := payloadOf "B" twoAnswers None.

(** [Number] on the sample query string, and a run of [Math.random]. *)
Definition sampleNumber (text : jsString) : option Q := Some (5 # 2).

Definition sampleRandom (k : nat) : Q := 1 # 2.




Definition mixedBoard : list Entry :=
  [ entry "P" 1 1 (Some 5%Q) 1; entry "N" 1 1 None 2; entry "H" 2 2 (Some 9%Q) 3 ].

(** ** Further vocabulary *)

(** What the handler writes for a player: a name of 1 to 32 code units, a
    question count above 0, a score from 0 to that count, a time that is null
    or not negative. *)
Definition wellFormed (e : Entry) : Prop :=
  name e <> [] /\ (length (name e) <= 32)%nat /\
  0 < totalQuestions e /\ 0 <= score e <= totalQuestions e /\
  match totalTime e with Some t => (0 <= t)%Q | None => True end.

(** A string of white space only. *)
Definition blank (s : jsString) : Prop := Forall (fun c => isWhiteSpace c = true) s.

(** A string in which white space is single spaces between other code
    units: none at the start (when [afterSpace] is set) and no two in a
    row. *)
Fixpoint tidy (afterSpace : bool) (s : jsString) : bool :=
  match s with
  | [] => true
  | c :: rest =>
      if isWhiteSpace c then (c =? space)%N && negb afterSpace && tidy true rest
      else tidy false rest
  end.

(** What a response to a submission says apart from the leaderboard: the
    error message, or the score and the total. *)
Definition verdict (r : SubmitResponse) : ErrorMessage + Z * Z :=
  match r with
  | Ok200 sc total _ => inr (sc, total)
  | Error400 e => inl e
  end.

Definition isOk (r : SubmitResponse) : bool :=
  match r with Ok200 _ _ _ => true | Error400 _ => false end.

(** ** The first version of the submit handler

    The first server checked that there is one answer per question of the
    bank and compared the answers with the bank place by place; the page
    sent its array of choices as it was. *)
Section Legacy.

Variable questions : list Question.

(** [Array.isArray(payload.answers) ? payload.answers : []]. *)
Definition legacyAnswers (rawAnswers : option json) : list json :=
  match rawAnswers with
  | Some (JArr items) => items
  | _ => []
  end.

(** [question.answer === answers[index]]. *)
Definition answerIs (q : Question) (selected : option json) : bool :=
  match selected with
  | Some (JNum n) => Qeq_bool (inject_Z (answer q)) n
  | _ => false
  end.

(** The scoring [reduce] over the bank, from position [index] on. *)
Fixpoint legacyReduce (index : nat) (bank : list Question) (answers : list json) (acc : Z) : Z :=
  match bank with
  | [] => acc
  | q :: rest =>
      legacyReduce (S index) rest answers
        (acc + (if answerIs q (answers !! index) then 1 else 0))
  end.

(** Score and total of the first handler for a request with a name, or
    [None] for its 400 about the number of answers. *)
Definition legacyResult (rawAnswers : option json) : option (Z * Z) :=
  let answers := legacyAnswers rawAnswers in
  if negb (length answers =? length questions)%nat then None
  else Some (legacyReduce 0 questions answers 0, Z.of_nat (length questions)).

End Legacy.

(** ** The page: answers, feedback and the submission *)
Module Page.
Import Client.

(** The status [handleChoiceSelection] files for a choice. *)
Definition statusFor (q : Question) (choice : nat) : Status :=
  if Z.of_nat choice =? answer q then correct else incorrect.

(** [state.answers[index]] when it is a number. *)
Definition choiceAt (s : State) (index : nat) : option nat :=
  match answers s !! index with
  | Some (Some choice) => Some choice
  | _ => None
  end.

(** Answer and feedback of one position agree: both null, or a choice with
    the feedback that this choice earns on the question. *)
Definition agreeAt (s : State) (i : nat) (q : Question) : Prop :=
  match answers s !! i, feedback s !! i with
  | Some None, Some None => True
  | Some (Some choice), Some (Some f) => status f = statusFor q choice
  | _, _ => False
  end.

(** What the page keeps in step during a session: one answer slot and one
    feedback slot per question, the questions a reordering of the loaded
    ones, feedback that matches the recorded choice, every question before
    the current one answered, and the label of the next button. *)
Definition coherent (s : State) : Prop :=
  length (answers s) = length (questions s) /\
  length (feedback s) = length (questions s) /\
  Permutation (questions s) (originalQuestions s) /\
  (forall i q, questions s !! i = Some q -> agreeAt s i q) /\
  (forall i, (i < currentIndex s)%nat -> is_Some (choiceAt s i)) /\
  nextLabel s = (if atLast s then ShowResults else NextQuestion).

(** [answerPayload] of [submitAnswers]: question id and choice, one pair per
    question; the choice is [None] when the slot holds no number. *)
Definition answerPayload (s : State) : list (Z * option nat) :=
  imap (fun index q => (id q, choiceAt s index)) (questions s).

(** An entry of the payload as [JSON.parse] returns it on the server. *)
Definition payloadEntry (e : Z * nat) : json :=
  JObj [("questionId"%string, JNum (inject_Z (fst e)));
        ("choiceIndex"%string, JNum (inject_Z (Z.of_nat (snd e))))].

(** The request body of [submitAnswers], as parsed on arrival, or [None]
    when some [choiceIndex] is not a number and nothing is sent.
    [playerName] is the value of the name field, [totalTime] the elapsed
    seconds. *)
Definition submitBody (s : State) (playerName : jsString) (totalTime : Q) : option json :=
  match mapM (fun e => match snd e with
                       | Some choice => Some (fst e, choice)
                       | None => None
                       end)
             (answerPayload s) with
  | None => None
  | Some entries =>
      Some (JObj [("playerName"%string, JStr playerName);
                  ("answers"%string, JArr (payloadEntry <$> entries));
                  ("totalTime"%string, JNum totalTime)])
  end.

(** The questions the page marks as answered correctly. *)
Definition markedCorrect (f : option Feedback) : bool :=
  match f with
  | Some f => match status f with correct => true | incorrect => false end
  | None => false
  end.

Definition correctCount (s : State) : Z :=
  Z.of_nat (length (List.filter markedCorrect (feedback s))).

End Page.

(** ** The later version of the page

    The page that lets the player choose the number of questions differs in
    the navigation only by [updateNavigationButtons], which first looks
    whether there are questions, and by [prepareNewQuiz], which calls it when
    there are none.  The functions that call these are repeated with them. *)
Module Client2.
Import Client.

Definition updateNavigationButtons (s : State) : State :=
  match questions s with
  | [] =>
      {| originalQuestions := originalQuestions s;
         questions := questions s;
         answers := answers s;
         feedback := feedback s;
         currentIndex := currentIndex s;
         nextDisabled := true;
         prevDisabled := true;
         nextLabel := NextQuestion |}
  | _ =>
      {| originalQuestions := originalQuestions s;
         questions := questions s;
         answers := answers s;
         feedback := feedback s;
         currentIndex := currentIndex s;
         nextDisabled := negb (answered s);
         prevDisabled := (currentIndex s =? 0)%nat;
         nextLabel := if atLast s then ShowResults else NextQuestion |}
  end.

Definition handleChoiceSelection (s : State) (selectedIndex : nat) : State :=
  match questions s !! currentIndex s with
  | None => s
  | Some q =>
      let isCorrect := Z.of_nat selectedIndex =? answer q in
      updateNavigationButtons
        {| originalQuestions := originalQuestions s;
           questions := questions s;
           answers := arraySet (answers s) (currentIndex s) selectedIndex;
           feedback :=
             arraySet (feedback s) (currentIndex s)
               {| status := if isCorrect then correct else incorrect;
                  message := if isCorrect then correctMessage
                             else incorrectMessage (choiceText q) |};
           currentIndex := currentIndex s;
           nextDisabled := nextDisabled s;
           prevDisabled := prevDisabled s;
           nextLabel := nextLabel s |}
  end.

Definition renderQuestion (s : State) : State :=
  match questions s !! currentIndex s with
  | None => s
  | Some _ => updateNavigationButtons s
  end.

Definition prepareNewQuiz (random : nat -> Q) (s : State) : State :=
  match originalQuestions s with
  | [] =>
      updateNavigationButtons
        {| originalQuestions := originalQuestions s;
           questions := [];
           answers := [];
           feedback := [];
           currentIndex := 0;
           nextDisabled := nextDisabled s;
           prevDisabled := prevDisabled s;
           nextLabel := nextLabel s |}
  | _ =>
      let shuffled := shuffleQuestions random (originalQuestions s) in
      renderQuestion
        {| originalQuestions := originalQuestions s;
           questions := shuffled;
           answers := replicate (length shuffled) None;
           feedback := replicate (length shuffled) None;
           currentIndex := 0;
           nextDisabled := nextDisabled s;
           prevDisabled := prevDisabled s;
           nextLabel := nextLabel s |}
  end.

Definition onNextClick (s : State) : State * Effect :=
  if atLast s then (s, SubmitAnswers)
  else (renderQuestion (setIndex s (currentIndex s + 1)), NoEffect).

Definition onPrevClick (s : State) : State :=
  if (currentIndex s =? 0)%nat then s
  else renderQuestion (setIndex s (currentIndex s - 1)).

Definition advance (s : State) : State * Effect :=
  if nextDisabled s then (s, NoEffect) else onNextClick s.

Definition retreat (s : State) : State :=
  if prevDisabled s then s else onPrevClick s.

Definition dispatch (s : State) (e : Event) : State :=
  match e with
  | Select choiceIndex => handleChoiceSelection s choiceIndex
  | Next => fst (advance s)
  | Previous => retreat s
  | Restart random => prepareNewQuiz random s
  end.

End Client2.

(** ** The timer text *)

(** [String(n)] for an integer [n] from 0 up to (not including) 10^21,
    where the exponent notation begins: its decimal digits, the most
    significant first.  [fuel] bounds the number of digits. *)
Fixpoint decimalDigits (fuel : nat) (n : Z) : jsString :=
  match fuel with
  | O => []
  | S fuel' =>
      (if n <? 10 then [] else decimalDigits fuel' (n / 10)) ++ [(48 + Z.to_N (n mod 10))%N]
  end.

Definition numberToString (n : Z) : jsString :=
  decimalDigits (S (Z.to_nat (Z.log2 n))) n.

(** [text.padStart(2, '0')]. *)
Definition padStart2 (text : jsString) : jsString :=
  replicate (2 - length text) 48%N ++ text.

(** [formatTime]; the colon is code unit 58. *)
Definition formatTime (seconds : Q) : jsString :=
  let totalSeconds := Z.max 0 (Qfloor seconds) in
  let mins := padStart2 (numberToString (totalSeconds / 60)) in
  let secs := padStart2 (numberToString (totalSeconds mod 60)) in
  mins ++ [58%N] ++ secs.

(** The number a run of decimal digits denotes. *)
Definition digitsValue (text : jsString) : Z :=
  fold_left (fun acc c => 10 * acc + (Z.of_N c - 48)) text 0.

Definition isDigit (c : N) : Prop := (48 <= c <= 57)%N.

(** ** Further sample data *)

(** A submission without a time, as a list of properties. *)
Definition namedAnswers : list (string * json) :=
  [("playerName"%string, JStr (str "B")); ("answers"%string, JArr twoAnswers)].

(** The answers as the first version of the page sends them: one number per
    question of the bank, in the order of the bank. *)
Definition positionalNumbers : list Q := [1; 0; 0]%Q.

Definition positionalPayload : json := payloadOf "B" (JNum <$> positionalNumbers) None.

(** A wrong answer to the only question of [bank1]. *)
Definition lowPayload : json := payloadOf "N" [pick 1 1] None.

(** The page after it loaded the two questions the server sent, and a quiz
    on them that was answered to the end. *)
Definition servedState : Client.State :=
  {| Client.originalQuestions :=
       quizQuestions (handleQuiz bank3 sampleNumber sampleRandom (Some (str "2.5")));
     Client.questions := [];
     Client.answers := [];
     Client.feedback := [];
     Client.currentIndex := 0;
     Client.nextDisabled := false;
     Client.prevDisabled := false;
     Client.nextLabel := Client.NextQuestion |}.

Definition finishedQuiz : Client.State :=
  Client.dispatch
    (Client.dispatch
       (Client.dispatch (Client.prepareNewQuiz sampleRandom servedState) (Client.Select 1))
       Client.Next)
    (Client.Select 0).

(** The same quiz with the first question answered and the second shown. *)
Definition secondQuestion : Client.State :=
  Client.dispatch
    (Client.dispatch (Client.prepareNewQuiz sampleRandom servedState) (Client.Select 1))
    Client.Next.

(** * Properties *)

Ltac by_computation := vm_compute; reflexivity.

Ltac by_decision :=
  match goal with |- ?P => apply (@bool_decide_unpack P _); vm_compute; exact I end.

(** ** Rationals and the comparator *)

Lemma inject_Z_le0 z : (inject_Z z <= 0)%Q <-> z <= 0.
Proof. change 0%Q with (inject_Z 0). now rewrite <- Zle_Qle. Qed.

Lemma inject_Z_lt0 z : (inject_Z z < 0)%Q <-> z < 0.
Proof. change 0%Q with (inject_Z 0). now rewrite <- Zlt_Qlt. Qed.

Lemma Qlt_bool_iff x y : Qlt_bool x y = true <-> (x < y)%Q.
Proof.
  unfold Qlt_bool. rewrite negb_true_iff.
  destruct (Qle_bool y x) eqn:E.
  - apply Qle_bool_iff in E. split; [discriminate | intros; lra].
  - split; [intros _ | reflexivity].
    destruct (Qlt_le_dec x y) as [|Hle]; [assumption |].
    apply Qle_bool_iff in Hle. congruence.
Qed.

Lemma sameTime_true a b :
  sameTime a b = true -> (timeNumber a == timeNumber b)%Q.
Proof.
  destruct a, b; simpl; try discriminate; [apply Qeq_bool_eq | reflexivity].
Qed.

Lemma compare_le a b : (compareEntries a b <= 0)%Q <-> ranksBefore a b.
Proof.
  unfold compareEntries, ranksBefore.
  destruct (Z.eqb_spec (score b) (score a)) as [Hs|Hs]; simpl.
  - destruct (sameTime (totalTime a) (totalTime b)) eqn:Ht; simpl.
    + rewrite inject_Z_le0. apply sameTime_true in Ht.
      split; [intros; right; split; [lia | right; right; split; [reflexivity | lia]] |].
      intros [|[_ [|[[? _]|[_ ?]]]]]; try lia; try discriminate. lra.
    + split.
      * intros H. right. split; [lia |].
        destruct (Qlt_le_dec (timeNumber (totalTime a)) (timeNumber (totalTime b)));
          [left; assumption | right; left; split; [reflexivity | lra]].
      * intros [|[_ [|[[_ ?]|[? _]]]]]; try lia; try discriminate; lra.
  - rewrite inject_Z_le0. split; [intros; left; lia | intros [|[? _]]; lia].
Qed.

Lemma compare_lt a b : (compareEntries a b < 0)%Q <-> strictlyBefore a b.
Proof.
  unfold compareEntries, strictlyBefore.
  destruct (Z.eqb_spec (score b) (score a)) as [Hs|Hs]; simpl.
  - destruct (sameTime (totalTime a) (totalTime b)) eqn:Ht; simpl.
    + rewrite inject_Z_lt0. apply sameTime_true in Ht.
      split; [intros; right; split; [lia | right; split; [reflexivity | lia]] |].
      intros [|[_ [|[_ ?]]]]; try lia. lra.
    + split.
      * intros H. right. split; [lia | left; lra].
      * intros [|[_ [|[? _]]]]; try lia; try discriminate; lra.
  - rewrite inject_Z_lt0. split; [intros; left; lia | intros [|[? _]]; lia].
Qed.

Lemma sameTime_sym a b : sameTime a b = sameTime b a.
Proof. destruct a, b; simpl; auto using Qeq_bool_comm. Qed.

Lemma sameTime_trans a b c :
  sameTime a b = true -> sameTime b c = true -> sameTime a c = true.
Proof.
  destruct a, b, c; simpl; try discriminate; auto.
  intros H1 H2. apply Qeq_bool_iff in H1, H2. apply Qeq_bool_iff. lra.
Qed.

Lemma sameTime_false_l a b c :
  sameTime a b = true -> sameTime b c = false -> sameTime a c = false.
Proof.
  intros Hab Hbc. destruct (sameTime a c) eqn:Hac; [| reflexivity].
  rewrite sameTime_sym in Hab. rewrite <- Hbc. symmetry.
  eapply sameTime_trans; eassumption.
Qed.

(** The comparator is antisymmetric: exchanging the arguments negates it. *)
Lemma compare_antisym a b : (compareEntries b a == - compareEntries a b)%Q.
Proof.
  unfold compareEntries. rewrite (sameTime_sym (totalTime b)).
  rewrite (Z.eqb_sym (score a) (score b)).
  destruct (score b =? score a); simpl.
  - destruct (sameTime (totalTime a) (totalTime b)); simpl; [| ring].
    rewrite <- inject_Z_opp. f_equiv. ring.
  - rewrite <- inject_Z_opp. f_equiv. ring.
Qed.

Lemma not_before_after a b :
  Qlt_bool (compareEntries a b) 0 = false -> ranksBefore b a.
Proof.
  intros H. apply compare_le. pose proof (compare_antisym a b) as Ha.
  destruct (Qlt_le_dec (compareEntries a b) 0) as [Hlt|Hle].
  - apply Qlt_bool_iff in Hlt. congruence.
  - lra.
Qed.

(** A strict step followed by a weak one is a weak step; the ranking itself
    is not transitive (a null time ties with a recorded 0). *)
Lemma strictly_ranks_trans a b c :
  strictlyBefore a b -> ranksBefore b c -> ranksBefore a c.
Proof.
  unfold strictlyBefore, ranksBefore.
  intros [Hab|[Hs [Hab|[Hst Hab]]]] [Hbc|[Hs' Hbc]]; try (left; lia); right; (split; [lia|]).
  - destruct Hbc as [Hbc|[[_ Hbc]|[Hbc _]]]; [left; lra | left; lra |].
    apply sameTime_true in Hbc. left; lra.
  - destruct Hbc as [Hbc|[[Hf Hbc]|[Hbc Hc]]].
    + apply sameTime_true in Hst. left; lra.
    + right; left. split; [eapply sameTime_false_l; eassumption |].
      apply sameTime_true in Hst. lra.
    + right; right. split; [eapply sameTime_trans; eassumption | lia].
Qed.

Lemma strictly_ranks a b : strictlyBefore a b -> ranksBefore a b.
Proof. rewrite <- compare_lt, <- compare_le. intros; lra. Qed.

Section Sorting.
Local Abbreviation ins := (insertSorted compareEntries).

Lemma insertSorted_perm x l : Permutation (x :: l) (ins x l).
Proof.
  induction l as [|y l IH]; simpl; [reflexivity |].
  destruct (Qlt_bool _ _); [reflexivity |].
  rewrite perm_swap. now apply perm_skip.
Qed.

Lemma insertSorted_sorted x l :
  StronglySorted ranksBefore l -> StronglySorted ranksBefore (ins x l).
Proof.
  induction 1 as [|y l Hl IH Hy]; simpl; [repeat constructor |].
  destruct (Qlt_bool (compareEntries x y) 0) eqn:E.
  - apply Qlt_bool_iff, compare_lt in E.
    constructor; [constructor; assumption |].
    constructor; [now apply strictly_ranks |].
    eapply Forall_impl; [exact Hy |]. intros z Hz. simpl in Hz.
    eapply strictly_ranks_trans; eassumption.
  - constructor; [assumption |].
    rewrite <- (insertSorted_perm x l). constructor; [| assumption].
    now apply not_before_after.
Qed.

Lemma sort_perm l : Permutation l (sort compareEntries l).
Proof.
  unfold sort. rewrite <- (app_nil_l l) at 1. 
  generalize (@nil Entry) as acc.
  induction l as [|x l IH]; intros acc; simpl; [now rewrite app_nil_r |].
  rewrite <- IH, <- insertSorted_perm. simpl. symmetry. apply Permutation_middle.
Qed.

Lemma sort_sorted l : StronglySorted ranksBefore (sort compareEntries l).
Proof.
  unfold sort. assert (H : StronglySorted ranksBefore (@nil Entry)) by constructor.
  revert H. generalize (@nil Entry) as acc.
  induction l as [|x l IH]; intros acc H; simpl; [assumption |].
  apply IH. now apply insertSorted_sorted.
Qed.

(** Inserting an entry that every stored entry ranks before puts it last. *)
Lemma insertSorted_last x l :
  Forall (fun y => ranksBefore y x) l -> ins x l = l ++ [x].
Proof.
  induction 1 as [|y l Hy Hl IH]; simpl; [reflexivity |].
  destruct (Qlt_bool (compareEntries x y) 0) eqn:E; [| now rewrite IH].
  apply Qlt_bool_iff in E. apply compare_le in Hy.
  pose proof (compare_antisym x y). lra.
Qed.
End Sorting.

Lemma StronglySorted_take {A} (R : A -> A -> Prop) n (l : list A) :
  StronglySorted R l -> StronglySorted R (take n l).
Proof.
  intros H. rewrite <- (take_drop n l) in H.
  now apply StronglySorted_app_1_l in H.
Qed.

Lemma StronglySorted_lookup {A} (R : A -> A -> Prop) (l : list A) i j a b :
  StronglySorted R l -> l !! i = Some a -> l !! j = Some b -> (i < j)%nat -> R a b.
Proof.
  intros H. revert i j. induction H as [|x l Hl IH Hx]; intros i j Hi Hj Hij.
  - discriminate.
  - destruct j as [|j]; [lia |]. simpl in Hj. destruct i as [|i]; simpl in Hi.
    + injection Hi as <-. rewrite Forall_forall in Hx.
      apply Hx. eapply list_elem_of_lookup_2; eassumption.
    + eapply IH; [eassumption | eassumption | lia].
Qed.

(** Sorting a ranked list changes nothing. *)
Lemma sort_sorted_id l :
  StronglySorted ranksBefore l -> sort compareEntries l = l.
Proof.
  unfold sort. change l with ([] ++ l) at 1 3. generalize (@nil Entry) as acc.
  induction l as [|x l IH]; intros acc H; simpl; [now rewrite app_nil_r |].
  rewrite insertSorted_last.
  - rewrite IH; rewrite <- app_assoc; [reflexivity | exact H].
  - apply StronglySorted_app in H as (H & _ & _). rewrite Forall_forall.
    intros y Hy. apply H; [assumption | left].
Qed.

Lemma sortLeaderboard_conforming l : conforming (sortLeaderboard l).
Proof.
  split.
  - unfold sortLeaderboard. rewrite length_take. lia.
  - apply StronglySorted_take, sort_sorted.
Qed.

Lemma sortLeaderboard_conforming_id l : conforming l -> sortLeaderboard l = l.
Proof.
  intros [Hlen Hs]. unfold sortLeaderboard.
  rewrite sort_sorted_id by assumption. now apply take_ge.
Qed.

(** ** The submit handler, case by case *)

Section Submit.

Variable questions : list Question.

(** A request is answered with 400 and leaves the file alone, or it is
    answered with 200 after the steps of the handler went through. *)
Lemma handleSubmit_cases stored parsed now :
  (exists e, handleSubmit questions stored parsed now = (Error400 e, stored)) \/
  (exists payload playerName rawName answerMap answeredQuestions,
      parsed = Some payload /\
      getProp payload "playerName" = Some playerName /\
      nameArgument playerName = Some (JStr rawName) /\
      sanitizeName rawName <> [] /\
      normalizeAnswers questions (default None (getProp payload "answers")) = Some answerMap /\
      answerMap <> [] /\
      answeredQuestionsOf questions answerMap = Some answeredQuestions /\
      let sc := scoreAnswers answeredQuestions answerMap in
      let total := Z.of_nat (length answeredQuestions) in
      let sorted :=
        sortLeaderboard
          (mergeEntry stored sc (submittedTime payload)
             (newEntryOf (sanitizeName rawName) sc total (submittedTime payload) now)) in
      handleSubmit questions stored parsed now = (Ok200 sc total sorted, sorted)).
Proof.
  unfold handleSubmit.
  destruct parsed as [payload|]; [| left; eauto].
  destruct (getProp payload "playerName") as [playerName|] eqn:Hp; [| left; eauto].
  destruct (nameArgument playerName) as [[| | |rawName| |]|] eqn:Hn; try (left; eauto; fail).
  destruct (sanitizeName rawName) as [|c cs] eqn:Hs; [left; eauto |].
  destruct (normalizeAnswers questions _) as [[|kv answerMap]|] eqn:Ha;
    try (left; eauto; fail).
  destruct (answeredQuestionsOf questions _) as [answered|] eqn:Hq;
    [| left; eauto].
  right. exists payload, playerName, rawName, (kv :: answerMap), answered.
  rewrite Hs. repeat split; try assumption; try discriminate.
Qed.

Lemma handleSubmit_error_keeps stored parsed now e stored' :
  handleSubmit questions stored parsed now = (Error400 e, stored') -> stored' = stored.
Proof.
  destruct (handleSubmit_cases stored parsed now) as [[e' H]|H].
  - rewrite H. congruence.
  - destruct H as (? & ? & ? & ? & ? & _ & _ & _ & _ & _ & _ & _ & H).
    simpl in H. rewrite H. discriminate.
Qed.

End Submit.

(** ** The merge rule and the ranking of the persisted leaderboard *)

Section Leaderboard.

Variable questions : list Question.





(** C10, amended.  In the ranking used for every write and display, of two
    entries with equal score where one has a null totalTime and the other a
    positive recorded time, the null-time entry comes first (null compares
    arithmetically as 0). *)
Theorem null_time_before_positive entries a b t i j :
  score a = score b ->
  totalTime a = None ->
  totalTime b = Some t ->
  (0 < t)%Q ->
  sortLeaderboard entries !! i = Some a ->
  sortLeaderboard entries !! j = Some b ->
  (i < j)%nat.
Proof.
  intros Hs Ha Hb Ht Hi Hj.
  destruct (Nat.lt_trichotomy i j) as [Hlt|[->|Hgt]]; [assumption | |].
  - rewrite Hi in Hj. injection Hj as ->. congruence.
  - exfalso. pose proof (sortLeaderboard_conforming entries) as [_ Hsorted].
    pose proof (StronglySorted_lookup _ _ _ _ _ _ Hsorted Hj Hi Hgt) as Hr.
    unfold ranksBefore in Hr. rewrite Ha, Hb in Hr. simpl in Hr.
    destruct Hr as [|[_ [|[[_ ?]|[? _]]]]]; try lia; try lra; discriminate.
Qed.

End Leaderboard.


(** ** Resubmission *)

Lemma NoDup_fmap_eq {A B} (f : A -> B) (l : list A) x y :
  NoDup (f <$> l) -> x ∈ l -> y ∈ l -> f x = f y -> x = y.
Proof.
  induction l as [|z l IH]; simpl; intros Hnd Hx Hy Hf; [inversion Hx |].
  apply NoDup_cons in Hnd as [Hz Hnd].
  apply elem_of_cons in Hx as [->|Hx], Hy as [->|Hy]; auto.
  - exfalso. apply Hz. rewrite Hf. now apply list_elem_of_fmap_2.
  - exfalso. apply Hz. rewrite <- Hf. now apply list_elem_of_fmap_2.
Qed.


Section Resubmission.

Variable N : jsString.
Variables (sc total : Z) (T : option Q).

Local Abbreviation entryAt now := (newEntryOf N sc total T now).

Lemma find_by_name stored e :
  list_find (fun entry => name entry = name e) stored = None <->
  name e ∉ name <$> stored.
Proof.
  rewrite list_find_None, Forall_forall. split.
  - intros H Hin. apply list_elem_of_fmap in Hin as (x & Hx & Hin). now apply (H x).
  - intros H x Hx Hn. apply H. rewrite <- Hn. now apply list_elem_of_fmap_2.
Qed.


Lemma mergeEntry_members stored now e :
  e ∈ mergeEntry stored sc T (entryAt now) -> e = entryAt now \/ e ∈ stored.
Proof.
  unfold mergeEntry. destruct (list_find _ stored) as [[i current]|].
  - destruct (_ || _); [| now right].
    intros H. apply list_elem_of_lookup in H as [j Hj].
    destruct (decide (i = j)) as [->|Hne].
    + left. assert (j < length stored)%nat.
      { apply lookup_lt_Some in Hj. now rewrite length_insert in Hj. }
      rewrite list_lookup_insert_eq in Hj by assumption. congruence.
    + right. rewrite list_lookup_insert_ne in Hj by assumption.
      eapply list_elem_of_lookup_2; eassumption.
  - intros H. apply elem_of_app in H as [H|H]; [now right |].
    left. now apply list_elem_of_singleton in H.
Qed.

Lemma mergeEntry_names stored now :
  NoDup (name <$> stored) -> NoDup (name <$> mergeEntry stored sc T (entryAt now)).
Proof.
  intros Hnd. unfold mergeEntry.
  destruct (list_find _ stored) as [[i current]|] eqn:Hfind.
  - destruct (_ || _); [| assumption].
    apply list_find_Some in Hfind as (Hi & Hname & _).
    rewrite list_fmap_insert, list_insert_id; [assumption |].
    rewrite list_lookup_fmap, Hi. simpl. now f_equal.
  - apply find_by_name in Hfind. rewrite fmap_app. simpl.
    apply NoDup_app. split; [assumption | split; [| apply NoDup_singleton]].
    intros x Hx Hx'. apply list_elem_of_singleton in Hx'. now subst.
Qed.

End Resubmission.

Section Twice.

Variable N : jsString.
Variables (sc total : Z) (T : option Q).

Local Abbreviation entryAt now := (newEntryOf N sc total T now).




End Twice.

Section Idempotence.

Variable questions : list Question.

Lemma handleSubmit_accept stored payload now playerName rawName answerMap answeredQuestions :
  getProp payload "playerName" = Some playerName ->
  nameArgument playerName = Some (JStr rawName) ->
  sanitizeName rawName <> [] ->
  normalizeAnswers questions (default None (getProp payload "answers")) = Some answerMap ->
  answerMap <> [] ->
  answeredQuestionsOf questions answerMap = Some answeredQuestions ->
  let sc := scoreAnswers answeredQuestions answerMap in
  let total := Z.of_nat (length answeredQuestions) in
  let sorted :=
    sortLeaderboard
      (mergeEntry stored sc (submittedTime payload)
         (newEntryOf (sanitizeName rawName) sc total (submittedTime payload) now)) in
  handleSubmit questions stored (Some payload) now = (Ok200 sc total sorted, sorted).
Proof.
  intros Hp Hn Hs Ha Hm Hq. cbv zeta. unfold handleSubmit.
  rewrite Hp, Hn, Ha, Hq.
  destruct (sanitizeName rawName); [contradiction |].
  destruct answerMap; [contradiction | reflexivity].
Qed.


End Idempotence.

(** ** Answer maps *)


Lemma mapHas_app m1 m2 k : mapHas (m1 ++ m2) k = mapHas m1 k || mapHas m2 k.
Proof. unfold mapHas. apply existsb_app. Qed.

Lemma mapHas_Qeq m k k' : (k == k')%Q -> mapHas m k = mapHas m k'.
Proof.
  intros Hk. unfold mapHas. induction m as [|[a b] m IH]; simpl; [reflexivity |].
  rewrite IH. f_equal. now apply Qeqb_comp.
Qed.

Lemma mapSet_fresh m k v : mapHas m k = false -> mapSet m k v = m ++ [(k, v)].
Proof.
  unfold mapHas. induction m as [|[a b] m IH]; simpl; [reflexivity |].
  intros H. apply orb_false_iff in H as [Ha Hm]. rewrite Ha. now rewrite IH.
Qed.



Lemma filter_length_le {A} (f : A -> bool) l : (length (List.filter f l) <= length l)%nat.
Proof. induction l as [|x l IH]; simpl; [lia |]. destruct (f x); simpl; lia. Qed.

Lemma filter_length_all {A} (f : A -> bool) l :
  length (List.filter f l) = length l -> List.filter f l = l /\ Forall (fun x => f x = true) l.
Proof.
  induction l as [|x l IH]; simpl; [auto |].
  pose proof (filter_length_le f l) as Hle. destruct (f x) eqn:E; simpl; [| lia].
  intros Hlen. destruct IH as [-> ?]; [lia |]. auto.
Qed.

Lemma filter_twice {A} (f g : A -> bool) l :
  List.filter f (List.filter g l) = List.filter (fun x => f x && g x) l.
Proof.
  induction l as [|x l IH]; simpl; [reflexivity |].
  destruct (g x); simpl; rewrite ?andb_true_r, ?andb_false_r; [| assumption].
  destruct (f x); now rewrite IH.
Qed.

Lemma firstPerKey_length refs : (length (firstPerKey refs) <= length refs)%nat.
Proof.
  induction refs as [|r refs IH]; simpl; [lia |].
  pose proof (filter_length_le (fun kv => negb (Qeq_bool (fst kv) (fst r))) (firstPerKey refs)).
  lia.
Qed.

(** No entry was dropped: the question ids are pairwise different. *)
Lemma firstPerKey_all refs :
  length (firstPerKey refs) = length refs ->
  firstPerKey refs = refs /\ StronglySorted keyDiffers refs.
Proof.
  induction refs as [|r refs IH]; simpl; [split; [reflexivity | constructor] |].
  pose proof (firstPerKey_length refs) as Hle.
  pose proof (filter_length_le (fun kv => negb (Qeq_bool (fst kv) (fst r))) (firstPerKey refs))
    as Hle'.
  intros Hlen. destruct IH as [Heq Hs]; [lia |].
  destruct (filter_length_all (fun kv => negb (Qeq_bool (fst kv) (fst r))) (firstPerKey refs))
    as [Hf Hall]; [lia |].
  rewrite Hf, Heq. split; [reflexivity |]. constructor; [assumption |].
  rewrite Heq in Hall. eapply Forall_impl; [exact Hall |].
  intros kv Hkv. simpl in Hkv. apply negb_true_iff, Qeq_bool_neq in Hkv.
  unfold keyDiffers. intros Hq. apply Hkv. now symmetry.
Qed.

Lemma mapGet_distinct m p k c k' :
  StronglySorted keyDiffers m -> m !! p = Some (k, c) -> (k == k')%Q ->
  mapGet m k' = Some c.
Proof.
  intros Hs. revert p. induction Hs as [|[a b] m Hm IH Ha]; intros p Hp Hk; [discriminate |].
  unfold mapGet. simpl. destruct p as [|p]; simpl in Hp.
  - injection Hp as -> ->. apply Qeq_eq_bool in Hk. now rewrite Hk.
  - destruct (Qeq_bool a k') eqn:E.
    + exfalso. apply Qeq_bool_eq in E. rewrite Forall_forall in Ha.
      apply (Ha (k, c)); [eapply list_elem_of_lookup_2; eassumption |].
      simpl. lra.
    + now apply (IH p).
Qed.


Section Answers.

Variable questions : list Question.

Lemma bank_id_known i q :
  questions !! i = Some q -> questionIdSet_has questions (inject_Z (id q)) = true.
Proof.
  intros H. unfold questionIdSet_has. apply existsb_exists. exists q.
  split; [| apply Qeq_bool_refl].
  apply list_elem_of_In. eapply list_elem_of_lookup_2; eassumption.
Qed.

(** A round of the loop adds what the entry denotes, unless its question is
    taken. *)
Lemma normalizeEntry_ref map entry index :
  normalizeEntry questions map entry index =
  match entryRef questions entry index with
  | Some (k, v) => if mapHas map k then map else map ++ [(k, v)]
  | None => map
  end.
Proof.
  unfold normalizeEntry, entryRef.
  destruct entry as [| |n| | |props]; try reflexivity.
  - destruct (questions !! index) as [q|] eqn:Hq; [| reflexivity].
    rewrite (bank_id_known _ _ Hq). simpl.
    destruct (mapHas map _) eqn:E; [reflexivity | now apply mapSet_fresh].
  - destruct (lookupProp props "questionId") as [[| |k| | |]|]; try reflexivity.
    destruct (lookupProp props "choiceIndex") as [[| |v| | |]|]; try reflexivity.
    fold (questionIdSet_has questions k).
    destruct (questionIdSet_has questions k); simpl; [| reflexivity].
    destruct (mapHas map k) eqn:E; [reflexivity | now apply mapSet_fresh].
Qed.


(** The loop keeps, of the valid entries, the first of each question that
    the map does not hold yet. *)
Lemma forEachFrom_spec items : forall index map,
  forEachFrom questions index items map =
  map ++ List.filter (unmapped map) (firstPerKey (validRefs questions index items)).
Proof.
  induction items as [|entry items IH]; intros index map; simpl.
  - now rewrite app_nil_r.
  - rewrite IH, normalizeEntry_ref.
    destruct (entryRef questions entry index) as [[k v]|]; [| reflexivity].
    simpl. unfold unmapped at 2. simpl.
    destruct (mapHas map k) eqn:E; simpl.
    + f_equal. rewrite filter_twice. apply filter_ext. intros [a b]. unfold unmapped. simpl.
      destruct (Qeq_bool a k) eqn:Ea; simpl; [| now rewrite andb_true_r].
      apply Qeq_bool_eq in Ea. rewrite (mapHas_Qeq _ _ _ Ea), E. reflexivity.
    + rewrite <- app_assoc. simpl. do 2 f_equal.
      rewrite filter_twice. apply filter_ext. intros [a b]. unfold unmapped. simpl.
      rewrite mapHas_app. simpl. rewrite orb_false_r, negb_orb, Qeq_bool_comm. reflexivity.
Qed.

Lemma forEachFrom_start items :
  forEachFrom questions 0 items [] = firstPerKey (validRefs questions 0 items).
Proof.
  rewrite forEachFrom_spec. simpl.
  induction (firstPerKey _) as [|x l IH]; simpl; [reflexivity | now rewrite IH].
Qed.

Lemma normalizeAnswers_spec items :
  normalizeAnswers questions (Some (JArr items)) =
  if decide (items <> [] /\ distinctValid questions items = length items)
  then Some (firstPerKey (validRefs questions 0 items))
  else None.
Proof.
  unfold normalizeAnswers, distinctValid. rewrite forEachFrom_start.
  destruct items as [|entry items]; [now rewrite decide_False by tauto |].
  destruct (Nat.eqb_spec (length (firstPerKey (validRefs questions 0 (entry :: items))))
              (length (entry :: items))) as [He|He]; simpl.
  - now rewrite decide_True.
  - now rewrite decide_False by tauto.
Qed.

Lemma validRefs_length index items :
  (length (validRefs questions index items) <= length items)%nat.
Proof.
  revert index. induction items as [|entry items IH]; intros index; simpl; [lia |].
  specialize (IH (S index)). destruct (entryRef questions entry index); simpl; lia.
Qed.

(** When no entry is invalid, the valid entries are the entries, place by
    place. *)
Lemma validRefs_all index items j entry :
  length (validRefs questions index items) = length items ->
  items !! j = Some entry ->
  exists r, entryRef questions entry (index + j) = Some r /\
            validRefs questions index items !! j = Some r.
Proof.
  revert index j. induction items as [|e items IH]; intros index j Hlen Hj; [discriminate |].
  simpl in Hlen |- *. pose proof (validRefs_length (S index) items).
  destruct (entryRef questions e index) as [r|] eqn:Hr; simpl in Hlen; [| lia].
  destruct j as [|j]; simpl in Hj.
  - injection Hj as <-. exists r. now rewrite Nat.add_0_r.
  - destruct (IH (S index) j) as (r' & Hr' & Hl); [lia | assumption |].
    exists r'. split; [| exact Hl]. now rewrite <- Nat.add_succ_comm.
Qed.

Lemma validRefs_invalid index items entry :
  entry ∈ items -> (forall j, entryRef questions entry j = None) ->
  (length (validRefs questions index items) < length items)%nat.
Proof.
  intros Hin Hnone. revert index. induction items as [|e items IH]; intros index; [inversion Hin |].
  simpl. pose proof (validRefs_length (S index) items).
  apply elem_of_cons in Hin as [<-|Hin].
  - rewrite Hnone. lia.
  - specialize (IH Hin (S index)). destruct (entryRef questions e index); simpl; lia.
Qed.

(** What an accepted submission is. *)
Lemma normalizeAnswers_accepted items answerMap :
  normalizeAnswers questions (Some (JArr items)) = Some answerMap ->
  items <> [] /\
  answerMap = validRefs questions 0 items /\
  length answerMap = length items /\
  StronglySorted keyDiffers answerMap.
Proof.
  rewrite normalizeAnswers_spec. destruct (decide _) as [[Hne Hd]|]; [| discriminate].
  intros [= <-]. unfold distinctValid in Hd.
  pose proof (firstPerKey_length (validRefs questions 0 items)).
  pose proof (validRefs_length 0 items).
  destruct (firstPerKey_all (validRefs questions 0 items)) as [-> Hs]; [lia |].
  repeat split; auto. lia.
Qed.






Lemma entryRef_carried entry j q r :
  carriedId entry = Some q -> entryRef questions entry j = Some r -> fst r = q.
Proof.
  unfold carriedId, entryRef. destruct entry as [| | | | |props]; try discriminate.
  destruct (lookupProp props "questionId") as [[| |k| | |]|]; try discriminate.
  intros [= ->]. destruct (lookupProp props "choiceIndex") as [[| |v| | |]|]; try discriminate.
  destruct (existsb _ _); [| discriminate]. now intros [= <-].
Qed.

Lemma entryRef_unknown entry j q :
  carriedId entry = Some q -> questionIdSet_has questions q = false ->
  entryRef questions entry j = None.
Proof.
  unfold carriedId, entryRef, questionIdSet_has.
  destruct entry as [| | | | |props]; try discriminate.
  destruct (lookupProp props "questionId") as [[| |k| | |]|]; try discriminate.
  intros [= ->] ->. now destruct (lookupProp props "choiceIndex") as [[| | | | |]|].
Qed.

(** C3.  A submission whose answers are empty, or hold an entry with a
    question id that is not in the bank, or two entries with the same
    question id, or whose number of distinct valid entries differs from the
    number of submitted entries, is answered with 400: no score is returned
    and the stored leaderboard is unchanged. *)
Theorem invalid_answers_rejected stored payload now items :
  getProp payload "answers" = Some (Some (JArr items)) ->
  items = [] \/
  (exists entry q, entry ∈ items /\ carriedId entry = Some q /\
                   questionIdSet_has questions q = false) \/
  (exists i j e1 e2 q1 q2, (i < j)%nat /\ items !! i = Some e1 /\ items !! j = Some e2 /\
                   carriedId e1 = Some q1 /\ carriedId e2 = Some q2 /\ (q1 == q2)%Q) \/
  distinctValid questions items <> length items ->
  exists e, handleSubmit questions stored (Some payload) now = (Error400 e, stored).
Proof.
  intros Hans Hbad.
  destruct (handleSubmit_cases questions stored (Some payload) now) as [Herr|Hok];
    [exact Herr | exfalso].
  destruct Hok as (payload' & _ & _ & answerMap & _ & [= <-] & _ & _ & _ & Ha & _).
  rewrite Hans in Ha.
  change (normalizeAnswers questions (Some (JArr items)) = Some answerMap) in Ha.
  pose proof (normalizeAnswers_accepted _ _ Ha) as (Hne & -> & Hlen & Hdist).
  destruct Hbad as [->|[(entry & q & Hin & Hc & Hq)|[(i & j & e1 & e2 & q1 & q2 & Hij & Hi & Hj & H1 & H2 & Heq)|Hd]]].
  - contradiction.
  - pose proof (validRefs_invalid 0 items entry Hin
                  (fun j => entryRef_unknown entry j q Hc Hq)). lia.
  - destruct (validRefs_all 0 items i e1 Hlen Hi) as (r1 & Hr1 & Hl1).
    destruct (validRefs_all 0 items j e2 Hlen Hj) as (r2 & Hr2 & Hl2).
    apply (StronglySorted_lookup _ _ _ _ _ _ Hdist Hl1 Hl2 Hij).
    now rewrite (entryRef_carried _ _ _ _ H1 Hr1), (entryRef_carried _ _ _ _ H2 Hr2).
  - rewrite normalizeAnswers_spec in Ha. destruct (decide _) as [[_ ?]|]; [contradiction | discriminate].
Qed.



Lemma questionMap_get_Some k q :
  questionMap_get questions k = Some q -> q ∈ questions /\ (inject_Z (id q) == k)%Q.
Proof.
  unfold questionMap_get. intros H. apply find_some in H as [Hin Hk].
  split; [| now apply Qeq_bool_eq]. apply list_elem_of_In. now apply in_rev.
Qed.

Lemma questionMap_get_known k q :
  q ∈ questions -> (inject_Z (id q) == k)%Q -> is_Some (questionMap_get questions k).
Proof.
  intros Hin Hk. unfold questionMap_get.
  destruct (find _ (rev questions)) eqn:E; [eauto |]. exfalso.
  assert (Hf : Qeq_bool (inject_Z (id q)) k = false).
  { apply (find_none _ _ E q). apply in_rev. rewrite rev_involutive.
    now apply list_elem_of_In. }
  rewrite (Qeq_eq_bool _ _ Hk) in Hf. discriminate.
Qed.

Section UniqueIds.

Hypothesis ids_unique : NoDup (id <$> questions).

Lemma question_by_id q1 q2 k :
  q1 ∈ questions -> q2 ∈ questions ->
  (inject_Z (id q1) == k)%Q -> (inject_Z (id q2) == k)%Q -> q1 = q2.
Proof.
  intros H1 H2 Hk1 Hk2. eapply NoDup_fmap_eq; [exact ids_unique | assumption | assumption |].
  assert (Hq : (inject_Z (id q1) == inject_Z (id q2))%Q) by (rewrite Hk1, Hk2; reflexivity).
  unfold Qeq in Hq. simpl in Hq. lia.
Qed.

Lemma awarded_contribution entry j :
  awarded questions entry j =
  match entryRef questions entry j with Some r => contribution questions r | None => 0 end.
Proof.
  unfold awarded, referenced, entryRef, contribution.
  destruct entry as [| |n| | |props]; try reflexivity.
  - destruct (questions !! j) as [q|] eqn:Hq; [| reflexivity]. simpl.
    assert (Hin : q ∈ questions) by (eapply list_elem_of_lookup_2; eassumption).
    destruct (questionMap_get_known (inject_Z (id q)) q Hin ltac:(reflexivity)) as [q' Hq'].
    rewrite Hq'. apply questionMap_get_Some in Hq' as [Hin' Hk'].
    now rewrite (question_by_id q q' (inject_Z (id q)) Hin Hin' ltac:(reflexivity) Hk').
  - destruct (lookupProp props "questionId") as [[| |k| | |]|]; try reflexivity.
    destruct (lookupProp props "choiceIndex") as [[| |v| | |]|]; try reflexivity.
    destruct (find _ questions) as [q|] eqn:Hf.
    + apply find_some in Hf as [Hin Hk]. apply list_elem_of_In in Hin.
      assert (He : existsb (fun q0 => Qeq_bool (inject_Z (id q0)) k) questions = true).
      { apply existsb_exists. exists q. split; [now apply list_elem_of_In | exact Hk]. }
      rewrite He. simpl. apply Qeq_bool_eq in Hk.
      destruct (questionMap_get_known k q Hin Hk) as [q' Hq'].
      rewrite Hq'. apply questionMap_get_Some in Hq' as [Hin' Hk'].
      now rewrite (question_by_id q q' k Hin Hin' Hk Hk').
    + assert (He : existsb (fun q0 => Qeq_bool (inject_Z (id q0)) k) questions = false).
      { apply not_true_iff_false. intros He. apply existsb_exists in He as (q & Hin & Hk).
        now rewrite (find_none _ _ Hf q Hin) in Hk. }
      now rewrite He.
Qed.

Lemma pointsFrom_refs items : forall index,
  pointsFrom questions index items = sumZ (contribution questions <$> validRefs questions index items).
Proof.
  induction items as [|entry items IH]; intros index; simpl; [reflexivity |].
  rewrite awarded_contribution, IH.
  destruct (entryRef questions entry index); rewrite ?fmap_cons; cbn [sumZ]; lia.
Qed.

End UniqueIds.

Lemma scoreAnswers_fold answerMap suffix answeredQuestions : forall acc,
  (forall kv q, kv ∈ suffix -> questionMap_get questions (fst kv) = Some q ->
                mapGet answerMap (inject_Z (id q)) = Some (snd kv)) ->
  Forall2 (fun kv q => questionMap_get questions (fst kv) = Some q) suffix answeredQuestions ->
  fold_left
    (fun acc q =>
       match mapGet answerMap (inject_Z (id q)) with
       | None => acc
       | Some selected =>
           acc + (if Qeq_bool (inject_Z (answer q)) selected then 1 else 0)
       end)
    answeredQuestions acc
  = acc + sumZ (contribution questions <$> suffix).
Proof.
  intros acc Hget H. revert acc.
  induction H as [|kv q suffix answered Hq H IH]; intros acc.
  - simpl. lia.
  - rewrite fmap_cons. cbn [fold_left sumZ].
    rewrite (Hget kv q) by (auto; left). rewrite IH.
    + unfold contribution at 2. rewrite Hq. lia.
    + intros kv' q' Hin. apply Hget. now right.
Qed.

Lemma scoreAnswers_sum answerMap answeredQuestions :
  StronglySorted keyDiffers answerMap ->
  answeredQuestionsOf questions answerMap = Some answeredQuestions ->
  scoreAnswers answeredQuestions answerMap = sumZ (contribution questions <$> answerMap) /\
  length answeredQuestions = length answerMap.
Proof.
  intros Hd Hq. unfold answeredQuestionsOf in Hq. apply mapM_Some in Hq.
  split; [| symmetry; eapply Forall2_length; eassumption].
  unfold scoreAnswers. rewrite (scoreAnswers_fold answerMap answerMap); [lia | | assumption].
  intros [k c] q Hin Hk. simpl in *.
  apply list_elem_of_lookup in Hin as [p Hp].
  apply questionMap_get_Some in Hk as [_ Hk].
  eapply mapGet_distinct; [eassumption | eassumption | now symmetry].
Qed.

(** C4.  For a validated submission the returned score is the number of
    entries whose choice index is the answer index of the question they refer
    to, and the returned total is the number of submitted entries, whatever
    the size of the bank.  The ids of the bank are distinct. *)
Theorem score_counts_correct_entries stored payload now items sc total lb stored' :
  NoDup (id <$> questions) ->
  getProp payload "answers" = Some (Some (JArr items)) ->
  handleSubmit questions stored (Some payload) now = (Ok200 sc total lb, stored') ->
  sc = pointsFrom questions 0 items /\ total = Z.of_nat (length items).
Proof.
  intros Hids Hans H.
  destruct (handleSubmit_cases questions stored (Some payload) now) as [[e He]|Hok].
  { rewrite He in H. discriminate. }
  destruct Hok as (payload' & playerName & rawName & answerMap & answered &
                   [= <-] & _ & _ & _ & Ha & _ & Hq & Hok).
  cbv zeta in Hok. rewrite Hok in H. injection H as <- <- <- <-.
  rewrite Hans in Ha.
  change (normalizeAnswers questions (Some (JArr items)) = Some answerMap) in Ha.
  pose proof (normalizeAnswers_accepted _ _ Ha) as (_ & Hm & Hlen & Hdist).
  destruct (scoreAnswers_sum _ _ Hdist Hq) as [Hsc Hl].
  rewrite Hsc, Hl, Hlen, (pointsFrom_refs Hids), <- Hm. auto.
Qed.

End Answers.

(** ** The player name *)












Section Names.

Variable questions : list Question.


End Names.

(** ** The quiz: count and selection *)

Lemma insert_swap_perm {A} (l : list A) j a b :
  l !! j = Some b -> Permutation (b :: <[j := a]> l) (a :: l).
Proof.
  revert j. induction l as [|x l IH]; intros j Hj; [discriminate |].
  destruct j as [|j]; simpl in *.
  - injection Hj as ->. apply perm_swap.
  - rewrite perm_swap, (IH j Hj). apply perm_swap.
Qed.

Lemma swap_perm {A} (copy : list A) i j : Permutation (swap copy i j) copy.
Proof.
  unfold swap. destruct (copy !! i) as [a|] eqn:Hi; [| reflexivity].
  destruct (copy !! j) as [b|] eqn:Hj; [| reflexivity].
  revert i j Hi Hj. induction copy as [|x l IH]; intros i j Hi Hj; [discriminate |].
  destruct i as [|i], j as [|j]; simpl in *.
  - injection Hi as ->. now injection Hj as ->.
  - injection Hi as ->. now apply insert_swap_perm.
  - injection Hj as ->. now apply insert_swap_perm.
  - apply perm_skip. now apply IH.
Qed.

Section Quiz.

Variable questions : list Question.
Variable Number : jsString -> option Q.
Variable random : nat -> Q.

Lemma shuffleLoop_perm {A} i : forall k (copy : list A),
  Permutation (shuffleLoop random i k copy) copy.
Proof.
  induction i as [|i IH]; intros k copy; simpl; [reflexivity |].
  rewrite IH. apply swap_perm.
Qed.

Lemma shuffleQuestions_perm bank : Permutation (shuffleQuestions random bank) bank.
Proof. apply shuffleLoop_perm. Qed.

(** The index drawn at step [i] lies in [0, i]. *)
Lemma drawn_index_in_range i k :
  (0 <= random k < 1)%Q ->
  (Z.to_nat (Qfloor (random k * inject_Z (Z.of_nat i + 1))) <= i)%nat.
Proof.
  intros [Hlo Hhi].
  assert (Hi : (0 < inject_Z (Z.of_nat i + 1))%Q).
  { change 0%Q with (inject_Z 0). rewrite <- Zlt_Qlt. lia. }
  assert (Hlt : (random k * inject_Z (Z.of_nat i + 1) < inject_Z (Z.of_nat i + 1))%Q) by nra.
  pose proof (Qfloor_le (random k * inject_Z (Z.of_nat i + 1))) as Hfl.
  assert (Hz : (inject_Z (Qfloor (random k * inject_Z (Z.of_nat i + 1)))
                < inject_Z (Z.of_nat i + 1))%Q) by lra.
  rewrite <- Zlt_Qlt in Hz. lia.
Qed.

Lemma clampQuestionCount_effective limitParam :
  questions <> [] ->
  0 <= clampQuestionCount questions Number limitParam /\
  Z.min (clampQuestionCount questions Number limitParam) (Z.of_nat (length questions))
  = effectiveCount questions Number limitParam.
Proof.
  intros Hne. assert (1 <= Z.of_nat (length questions)) by (destruct questions; simpl in *; [contradiction | lia]).
  unfold clampQuestionCount, effectiveCount, requestedCount, DEFAULT_QUESTION_COUNT.
  destruct limitParam as [[|c text]|]; try lia.
  destruct (Number (c :: text)) as [parsed|]; try lia.
  destruct (Z.ltb_spec (trunc parsed) 1); [lia |].
  destruct (Z.ltb_spec (Z.of_nat (length questions)) (trunc parsed)); lia.
Qed.

(** C5.  For every value of the [limit] parameter, absent, empty and
    non-numeric ones included, [GET /api/quiz] on a non-empty bank of
    distinct ids returns as many questions as the requested count (10 by
    default) clamped to [1, bankSize]; their ids are pairwise distinct and
    they all come from the bank. *)
Theorem quiz_has_the_effective_count limitParam :
  questions <> [] ->
  NoDup (id <$> questions) ->
  (forall k, (0 <= random k < 1)%Q) ->
  let response := handleQuiz questions Number random limitParam in
  let count := effectiveCount questions Number limitParam in
  1 <= count <= Z.of_nat (length questions) /\
  Z.of_nat (length (quizQuestions response)) = count /\
  quizTotal response = count /\
  NoDup (id <$> quizQuestions response) /\
  (forall q, q ∈ quizQuestions response -> q ∈ questions).
Proof.
  intros Hne Hids Hrandom. cbv zeta.
  destruct (clampQuestionCount_effective limitParam Hne) as [Hpos Heff].
  pose proof (shuffleQuestions_perm questions) as Hperm.
  assert (Hsel : quizQuestions (handleQuiz questions Number random limitParam) =
                 take (Z.to_nat (clampQuestionCount questions Number limitParam))
                      (shuffleQuestions random questions)).
  { unfold handleQuiz, slice0. simpl.
    destruct (Z.ltb_spec (clampQuestionCount questions Number limitParam) 0); [lia | reflexivity]. }
  assert (Hlen : Z.of_nat (length (quizQuestions (handleQuiz questions Number random limitParam)))
                 = effectiveCount questions Number limitParam).
  { rewrite Hsel, length_take, (Permutation_length Hperm), <- Heff. lia. }
  assert (1 <= Z.of_nat (length questions))
    by (destruct questions; simpl in *; [contradiction | lia]).
  repeat split.
  - unfold effectiveCount. lia.
  - unfold effectiveCount. lia.
  - exact Hlen.
  - unfold handleQuiz at 1. simpl. exact Hlen.
  - rewrite Hsel, fmap_take. eapply sublist_NoDup; [| apply sublist_take].
    now rewrite Hperm.
  - intros q Hq. rewrite Hsel in Hq. apply subseteq_take in Hq. now rewrite Hperm in Hq.
Qed.

End Quiz.

(** ** Navigation in the client *)

Module ClientFacts.
Import Client.

Lemma renderQuestion_inSession s :
  originalQuestions s <> [] ->
  (currentIndex s < length (questions s))%nat ->
  inSession (renderQuestion s).
Proof.
  intros Ho Hi. unfold renderQuestion.
  destruct (questions s !! currentIndex s) eqn:E.
  - repeat split; assumption.
  - apply lookup_ge_None in E. lia.
Qed.

Lemma arraySet_lookup {A} (array : list (option A)) i v :
  arraySet array i v !! i = Some (Some v).
Proof.
  unfold arraySet. destruct (Nat.ltb_spec i (length array)).
  - now apply list_lookup_insert_eq.
  - rewrite lookup_app_r by lia. rewrite lookup_app_r; rewrite length_replicate; [| lia].
    now replace (i - length array - (i - length array))%nat with 0%nat by lia.
Qed.

Lemma selectChoice_spec s choiceIndex :
  (currentIndex s < length (questions s))%nat ->
  let s' := selectChoice s choiceIndex in
  answers s' !! currentIndex s' = Some (Some choiceIndex) /\
  nextDisabled s' = false /\
  currentIndex s' = currentIndex s /\
  questions s' = questions s /\
  originalQuestions s' = originalQuestions s /\
  prevDisabled s' = (currentIndex s =? 0)%nat.
Proof.
  intros Hi. unfold selectChoice, handleChoiceSelection.
  destruct (questions s !! currentIndex s) as [q|] eqn:E;
    [| apply lookup_ge_None in E; lia].
  cbv zeta. unfold updateNavigationButtons, answered. simpl.
  rewrite arraySet_lookup. repeat split.
Qed.

Lemma prepareNewQuiz_inSession random s :
  originalQuestions s <> [] -> inSession (prepareNewQuiz random s).
Proof.
  intros Ho. unfold prepareNewQuiz.
  destruct (originalQuestions s) as [|q0 qs] eqn:E; [contradiction |].
  apply renderQuestion_inSession; simpl; [discriminate |].
  pose proof (shuffleQuestions_perm random (q0 :: qs)) as Hp.
  apply Permutation_length in Hp. rewrite Hp. simpl. lia.
Qed.

Lemma session_inSession s : session s -> inSession s.
Proof.
  induction 1 as [random s Ho | s e Hs (Ho & Hi & Hn & Hp)].
  - now apply prepareNewQuiz_inSession.
  - assert (Hin : inSession s) by (repeat split; assumption).
    destruct e as [choiceIndex | | | random]; simpl.
    + destruct (selectChoice_spec s choiceIndex Hi) as (Ha & Hd & Hc & Hq & Hoq & Hpd).
      repeat split.
      * now rewrite Hoq.
      * now rewrite Hc, Hq.
      * unfold answered. now rewrite Ha, Hd.
      * now rewrite Hpd, Hc.
    + unfold advance. destruct (nextDisabled s); [exact Hin |].
      unfold onNextClick. destruct (atLast s) eqn:El; [exact Hin |].
      apply renderQuestion_inSession; simpl; [assumption |].
      unfold atLast in El. apply Z.eqb_neq in El. lia.
    + unfold retreat. destruct (prevDisabled s); [exact Hin |].
      unfold onPrevClick. destruct (Nat.eqb_spec (currentIndex s) 0); [exact Hin |].
      apply renderQuestion_inSession; simpl; [assumption | lia].
    + apply prepareNewQuiz_inSession. assumption.
Qed.

(** C6.  In every state of a session, [advance] leaves the state unchanged
    when the current question has no answer; after [selectChoice] recorded a
    choice at the current index the next button is enabled; and when the
    current question is answered, [advance] sets off the submission without
    moving at the last position and otherwise moves the current index
    forward by exactly one. *)
Theorem advance_waits_for_an_answer s :
  session s ->
  (answered s = false -> advance s = (s, NoEffect)) /\
  (forall choiceIndex,
     let s' := selectChoice s choiceIndex in
     answers s' !! currentIndex s = Some (Some choiceIndex) /\
     currentIndex s' = currentIndex s /\
     nextDisabled s' = false /\
     advance s' = onNextClick s') /\
  (answered s = true ->
   if atLast s
   then advance s = (s, SubmitAnswers)
   else snd (advance s) = NoEffect /\
        currentIndex (fst (advance s)) = (currentIndex s + 1)%nat /\
        questions (fst (advance s)) = questions s /\
        answers (fst (advance s)) = answers s).
Proof.
  intros Hs. destruct (session_inSession s Hs) as (Ho & Hi & Hn & Hp).
  split; [| split].
  - intros Ha. unfold advance. now rewrite Hn, Ha.
  - intros choiceIndex.
    destruct (selectChoice_spec s choiceIndex Hi) as (Ha & Hd & Hc & _).
    cbv zeta. rewrite <- Hc at 1. repeat split; try assumption.
    unfold advance. now rewrite Hd.
  - intros Ha. unfold advance. rewrite Hn, Ha. simpl. unfold onNextClick.
    destruct (atLast s) eqn:El; [reflexivity |].
    unfold renderQuestion. simpl.
    destruct (questions s !! (currentIndex s + 1)%nat); repeat split.
Qed.

End ClientFacts.


(** ** The properties on sample data *)

(** The merge example of the specification: "A" holds 3 points in 40 s. *)



Lemma invalid_answers_rejected_witness :
  getProp duplicatePayload "answers" = Some (Some (JArr duplicateAnswers)) /\
  exists e, handleSubmit bank3 boardA (Some duplicatePayload) 9 = (Error400 e, boardA).
Proof.
  split; [reflexivity |].
  apply (invalid_answers_rejected bank3 boardA duplicatePayload 9 duplicateAnswers);
    [reflexivity |].
  right; right; left. exists 0%nat, 1%nat, (pick 1 1), (pick 1 0), 1%Q, 1%Q.
  repeat split; first [lia | reflexivity].
Defined.

Lemma score_counts_correct_entries_witness :
  NoDup (id <$> bank3) /\
  getProp twoAnswersB "answers" = Some (Some (JArr twoAnswers)) /\
  handleSubmit bank3 [] (Some twoAnswersB) 7
    = (Ok200 1 2 [entry "B" 1 2 None 7], [entry "B" 1 2 None 7]) /\
  (1 = pointsFrom bank3 0 twoAnswers /\ 2 = Z.of_nat (length twoAnswers)).
Proof.
  assert (Hids : NoDup (id <$> bank3)) by by_decision.
  split; [exact Hids | split; [reflexivity | split; [by_computation |]]].
  apply (score_counts_correct_entries bank3 [] twoAnswersB 7 twoAnswers 1 2
           [entry "B" 1 2 None 7] [entry "B" 1 2 None 7] Hids);
    [reflexivity | by_computation].
Defined.

(** [Number] on the sample query strings: every one reads as 2.5. *)

Lemma quiz_has_the_effective_count_witness :
  bank3 <> [] /\
  NoDup (id <$> bank3) /\
  (forall k, (0 <= sampleRandom k < 1)%Q) /\
  (1 <= effectiveCount bank3 sampleNumber (Some (str "2.5")) <= Z.of_nat (length bank3) /\
   Z.of_nat (length (quizQuestions (handleQuiz bank3 sampleNumber sampleRandom (Some (str "2.5")))))
     = effectiveCount bank3 sampleNumber (Some (str "2.5")) /\
   quizTotal (handleQuiz bank3 sampleNumber sampleRandom (Some (str "2.5")))
     = effectiveCount bank3 sampleNumber (Some (str "2.5")) /\
   NoDup (id <$> quizQuestions (handleQuiz bank3 sampleNumber sampleRandom (Some (str "2.5")))) /\
   (forall q, q ∈ quizQuestions (handleQuiz bank3 sampleNumber sampleRandom (Some (str "2.5"))) ->
              q ∈ bank3)).
Proof.
  assert (Hne : bank3 <> []) by discriminate.
  assert (Hids : NoDup (id <$> bank3)) by by_decision.
  assert (Hrandom : forall k, (0 <= sampleRandom k < 1)%Q)
    by (intros k; unfold sampleRandom; split; lra).
  split; [exact Hne | split; [exact Hids | split; [exact Hrandom |]]].
  exact (quiz_has_the_effective_count bank3 sampleNumber sampleRandom (Some (str "2.5"))
           Hne Hids Hrandom).
Defined.

Lemma advance_waits_for_an_answer_witness :
  Client.session firstQuestion /\
  ((Client.answered firstQuestion = false ->
    Client.advance firstQuestion = (firstQuestion, Client.NoEffect)) /\
   (forall choiceIndex,
      let s' := Client.selectChoice firstQuestion choiceIndex in
      Client.answers s' !! Client.currentIndex firstQuestion = Some (Some choiceIndex) /\
      Client.currentIndex s' = Client.currentIndex firstQuestion /\
      Client.nextDisabled s' = false /\
      Client.advance s' = Client.onNextClick s') /\
   (Client.answered firstQuestion = true ->
    if Client.atLast firstQuestion
    then Client.advance firstQuestion = (firstQuestion, Client.SubmitAnswers)
    else snd (Client.advance firstQuestion) = Client.NoEffect /\
         Client.currentIndex (fst (Client.advance firstQuestion))
           = (Client.currentIndex firstQuestion + 1)%nat /\
         Client.questions (fst (Client.advance firstQuestion)) = Client.questions firstQuestion /\
         Client.answers (fst (Client.advance firstQuestion)) = Client.answers firstQuestion)).
Proof.
  assert (Hs : Client.session firstQuestion)
    by (apply Client.session_start; discriminate).
  split; [exact Hs |].
  exact (ClientFacts.advance_waits_for_an_answer firstQuestion Hs).
Defined.




Lemma null_time_before_positive_witness :
  score (entry "N" 1 1 None 2) = score (entry "P" 1 1 (Some 5%Q) 1) /\
  totalTime (entry "N" 1 1 None 2) = None /\
  totalTime (entry "P" 1 1 (Some 5%Q) 1) = Some 5%Q /\
  (0 < 5)%Q /\
  sortLeaderboard mixedBoard !! 1%nat = Some (entry "N" 1 1 None 2) /\
  sortLeaderboard mixedBoard !! 2%nat = Some (entry "P" 1 1 (Some 5%Q) 1) /\
  (1 < 2)%nat.
Proof.
  assert (Hpos : (0 < 5)%Q) by lra.
  split; [reflexivity | split; [reflexivity | split; [reflexivity | split; [exact Hpos |]]]].
  split; [by_computation | split; [by_computation |]].
  apply (null_time_before_positive mixedBoard (entry "N" 1 1 None 2)
           (entry "P" 1 1 (Some 5%Q) 1) 5%Q 1 2); first [reflexivity | exact Hpos | by_computation].
Defined.

(** C10, as worded, fails: against a recorded time of 0 the null-time entry
    is not ordered first. *)
Lemma null_time_ties_with_zero :
  sortLeaderboard [entry "Z" 1 1 (Some 0%Q) 1; entry "N" 1 1 None 2]
    = [entry "Z" 1 1 (Some 0%Q) 1; entry "N" 1 1 None 2] /\
  ~ (forall entries a b i j,
       score a = score b -> totalTime a = None -> totalTime b <> None ->
       sortLeaderboard entries !! i = Some a ->
       sortLeaderboard entries !! j = Some b ->
       (i < j)%nat).
Proof.
  split; [by_computation |].
  intros H.
  specialize (H [entry "Z" 1 1 (Some 0%Q) 1; entry "N" 1 1 None 2]
                (entry "N" 1 1 None 2) (entry "Z" 1 1 (Some 0%Q) 1) 1%nat 0%nat).
  assert (Hlt : (1 < 0)%nat); [| lia].
  apply H; first [reflexivity | discriminate | by_computation].
Qed.


(** * Further properties of the server and of the page *)

(** * Further properties of the server *)


Section MoreSubmit.

Variable questions : list Question.



Lemma entryRef_known entry j r :
  entryRef questions entry j = Some r ->
  exists q, q ∈ questions /\ (inject_Z (id q) == fst r)%Q.
Proof.
  unfold entryRef. destruct entry as [| |n| | |props]; try discriminate.
  - destruct (questions !! j) as [q|] eqn:Hq; [| discriminate].
    intros [= <-]. exists q. split; [eapply list_elem_of_lookup_2; eassumption | reflexivity].
  - destruct (lookupProp props "questionId") as [[| |k| | |]|]; try discriminate.
    destruct (lookupProp props "choiceIndex") as [[| |v| | |]|]; try discriminate.
    destruct (existsb _ questions) eqn:He; [| discriminate].
    intros [= <-]. apply existsb_exists in He as (q & Hin & Hq).
    exists q. split; [now apply list_elem_of_In | now apply Qeq_bool_eq].
Qed.

Lemma validRefs_known index items :
  Forall (fun r => exists q, q ∈ questions /\ (inject_Z (id q) == fst r)%Q)
         (validRefs questions index items).
Proof.
  revert index. induction items as [|entry items IH]; intros index; simpl; [constructor |].
  destruct (entryRef questions entry index) as [r|] eqn:Hr; [| apply IH].
  constructor; [eapply entryRef_known; eassumption | apply IH].
Qed.

Lemma normalizeAnswers_array rawAnswers answerMap :
  normalizeAnswers questions rawAnswers = Some answerMap ->
  exists items, rawAnswers = Some (JArr items).
Proof.
  unfold normalizeAnswers. destruct rawAnswers as [[| | | |items|]|]; try discriminate.
  eauto.
Qed.

(** Every question an accepted answer map mentions is a question of the
    bank. *)
Lemma accepted_answers_resolve rawAnswers answerMap :
  normalizeAnswers questions rawAnswers = Some answerMap ->
  is_Some (answeredQuestionsOf questions answerMap).
Proof.
  intros H. destruct (normalizeAnswers_array _ _ H) as [items ->].
  apply normalizeAnswers_accepted in H as (_ & -> & _ & _).
  unfold answeredQuestionsOf. apply mapM_is_Some.
  eapply Forall_impl; [apply validRefs_known |].
  intros r (q & Hin & Hq). simpl. eapply questionMap_get_known; eassumption.
Qed.

(** X3.  No request is answered with the 400 of an answer to a question
    that does not exist: every question id that [normalizeAnswers] lets into
    the answer map is an id of the bank, so [questionMap.get] finds each. *)
Theorem unknown_question_is_never_answered stored parsed now :
  fst (handleSubmit questions stored parsed now) <> Error400 UnknownQuestion.
Proof.
  unfold handleSubmit.
  destruct parsed as [payload|]; [| discriminate].
  destruct (getProp payload "playerName") as [playerName|]; [| discriminate].
  destruct (nameArgument playerName) as [[| | |rawName| |]|]; try discriminate.
  destruct (sanitizeName rawName); [discriminate |].
  destruct (normalizeAnswers questions _) as [[|kv answerMap]|] eqn:Ha; try discriminate.
  destruct (accepted_answers_resolve _ _ Ha) as [answered ->]. discriminate.
Qed.

Lemma scoreAnswers_bounds answeredQuestions answerMap :
  0 <= scoreAnswers answeredQuestions answerMap <= Z.of_nat (length answeredQuestions).
Proof.
  unfold scoreAnswers.
  assert (H : forall acc,
             acc <= fold_left
                      (fun acc q =>
                         match mapGet answerMap (inject_Z (id q)) with
                         | None => acc
                         | Some selected =>
                             acc + (if Qeq_bool (inject_Z (answer q)) selected then 1 else 0)
                         end) answeredQuestions acc
                 <= acc + Z.of_nat (length answeredQuestions)).
  { induction answeredQuestions as [|q l IH]; intros acc; simpl fold_left.
    - simpl. lia.
    - rewrite length_cons, Nat2Z.inj_succ.
      destruct (mapGet answerMap (inject_Z (id q))) as [selected|].
      + destruct (Qeq_bool _ selected).
        * specialize (IH (acc + 1)). lia.
        * specialize (IH (acc + 0)). lia.
      + specialize (IH acc). lia. }
  specialize (H 0). lia.
Qed.

(** Different question ids resolve to different questions of the bank. *)
Lemma answered_questions_distinct answerMap answeredQuestions :
  StronglySorted keyDiffers answerMap ->
  Forall2 (fun kv q => questionMap_get questions (fst kv) = Some q) answerMap answeredQuestions ->
  NoDup answeredQuestions /\ (forall q, q ∈ answeredQuestions -> q ∈ questions).
Proof.
  intros Hs H. induction H as [|kv q m answered Hq H IH].
  - split; [constructor | intros q Hq; inversion Hq].
  - apply StronglySorted_inv in Hs as [Hs Hkv]. destruct (IH Hs) as [Hnd Hin].
    apply questionMap_get_Some in Hq as [Hqin Hqk]. split.
    + constructor; [| exact Hnd]. intros Hq'.
      apply list_elem_of_lookup in Hq' as [i Hi].
      destruct (Forall2_lookup_r _ _ _ _ _ H Hi) as (kv' & Hkv' & Hget).
      apply questionMap_get_Some in Hget as [_ Hk'].
      rewrite Forall_forall in Hkv.
      apply (Hkv kv'); [eapply list_elem_of_lookup_2; eassumption |]. lra.
    + intros q' Hq'. apply elem_of_cons in Hq' as [->|Hq']; auto.
Qed.

(** X5.  In a 200 response the score lies between 0 and the total, and the
    total between 1 and the number of questions of the bank. *)
Theorem score_within_total stored parsed now sc total lb stored' :
  handleSubmit questions stored parsed now = (Ok200 sc total lb, stored') ->
  0 <= sc <= total /\ 1 <= total <= Z.of_nat (length questions).
Proof.
  intros H. destruct (handleSubmit_cases questions stored parsed now) as [[e He]|Hok].
  { rewrite He in H. discriminate. }
  destruct Hok as (payload & playerName & rawName & answerMap & answered &
                   _ & _ & _ & _ & Ha & Hne & Hq & Hok).
  cbv zeta in Hok. rewrite Hok in H. injection H as <- <- <- <-.
  pose proof (scoreAnswers_bounds answered answerMap) as Hsc.
  destruct (normalizeAnswers_array _ _ Ha) as [items Hitems]. rewrite Hitems in Ha.
  apply normalizeAnswers_accepted in Ha as (_ & _ & _ & Hdist).
  unfold answeredQuestionsOf in Hq. apply mapM_Some in Hq.
  destruct (answered_questions_distinct _ _ Hdist Hq) as [Hnd Hin].
  pose proof (submseteq_length _ _ (NoDup_submseteq _ _ Hnd Hin)) as Hlen.
  pose proof (Forall2_length _ _ _ Hq) as Hl.
  destruct answerMap; [contradiction |]. simpl in Hl. lia.
Qed.


Lemma handleSubmit_names stored parsed now :
  NoDup (name <$> stored) -> NoDup (name <$> snd (handleSubmit questions stored parsed now)).
Proof.
  intros Hnd. destruct (handleSubmit_cases questions stored parsed now) as [[e He]|Hok].
  { now rewrite He. }
  destruct Hok as (payload & playerName & rawName & answerMap & answered &
                   _ & _ & _ & _ & _ & _ & _ & Hok).
  cbv zeta in Hok. rewrite Hok. simpl. unfold sortLeaderboard.
  rewrite fmap_take. eapply sublist_NoDup; [| apply sublist_take].
  rewrite <- sort_perm. now apply mergeEntry_names.
Qed.

(** X6.  A leaderboard file with at most one entry per name has at most one
    entry per name after any sequence of submissions. *)
Theorem names_stay_unique stored requests :
  NoDup (name <$> stored) ->
  NoDup (name <$> runSubmissions questions stored requests).
Proof.
  unfold runSubmissions. revert stored.
  induction requests as [|r requests IH]; intros stored Hnd; simpl.
  - exact Hnd.
  - apply IH. now apply handleSubmit_names.
Qed.

(** Where the merge puts the new entry, the stored entry of that name had no
    higher score. *)
Lemma mergeEntry_improves stored sc T newEntry e' :
  score newEntry = sc ->
  NoDup (name <$> stored) ->
  e' ∈ mergeEntry stored sc T newEntry ->
  e' ∈ stored \/
  (e' = newEntry /\ forall e, e ∈ stored -> name e = name newEntry -> score e <= sc).
Proof.
  intros Hsc Hnd. unfold mergeEntry.
  destruct (list_find (fun entry => name entry = name newEntry) stored)
    as [[i current]|] eqn:Hfind.
  - apply list_find_Some in Hfind as (Hi & Hname & _).
    assert (Hcur : current ∈ stored) by (eapply list_elem_of_lookup_2; eassumption).
    destruct (score current <? sc) eqn:Hlt; simpl.
    + apply Z.ltb_lt in Hlt. intros Hin.
      apply list_elem_of_lookup in Hin as [j Hj].
      destruct (decide (i = j)) as [->|Hne].
      * right. rewrite list_lookup_insert_eq in Hj by (now apply lookup_lt_Some in Hi).
        injection Hj as <-. split; [reflexivity |]. intros e He Hn.
        assert (e = current) as -> by (eapply NoDup_fmap_eq; eauto; congruence). lia.
      * left. rewrite list_lookup_insert_ne in Hj by assumption.
        eapply list_elem_of_lookup_2; eassumption.
    + destruct ((sc =? score current) && _) eqn:Hfast; [| now left].
      apply andb_true_iff in Hfast as [Heq _]. apply Z.eqb_eq in Heq. intros Hin.
      apply list_elem_of_lookup in Hin as [j Hj].
      destruct (decide (i = j)) as [->|Hne].
      * right. rewrite list_lookup_insert_eq in Hj by (now apply lookup_lt_Some in Hi).
        injection Hj as <-. split; [reflexivity |]. intros e He Hn.
        assert (e = current) as -> by (eapply NoDup_fmap_eq; eauto; congruence). lia.
      * left. rewrite list_lookup_insert_ne in Hj by assumption.
        eapply list_elem_of_lookup_2; eassumption.
  - apply find_by_name in Hfind. intros Hin. apply elem_of_app in Hin as [Hin|Hin]; [now left |].
    apply list_elem_of_singleton in Hin as ->. right. split; [reflexivity |].
    intros e He Hn. exfalso. apply Hfind. rewrite <- Hn. now apply list_elem_of_fmap_2.
Qed.

(** X7.  On a file with one entry per name, every entry of the file after a
    submission was in the file before or is the new entry of this
    submission, and no stored entry of the same name had a higher score:
    a player's recorded score never drops. *)
Theorem stored_scores_never_drop stored parsed now e' :
  NoDup (name <$> stored) ->
  e' ∈ snd (handleSubmit questions stored parsed now) ->
  (e' ∈ stored \/
   exists payload, parsed = Some payload /\ name e' = storedName payload /\ completedAt e' = now) /\
  forall e, e ∈ stored -> name e = name e' -> score e <= score e'.
Proof.
  intros Hnd He'.
  assert (Hsame : e' ∈ stored -> forall e, e ∈ stored -> name e = name e' -> score e <= score e').
  { intros Hin e He Hn. assert (e = e') as -> by (eapply NoDup_fmap_eq; eauto). lia. }
  destruct (handleSubmit_cases questions stored parsed now) as [[err Herr]|Hok].
  { rewrite Herr in He'. simpl in He'. split; [now left | now apply Hsame]. }
  destruct Hok as (payload & playerName & rawName & answerMap & answered &
                   -> & Hp & Hna & _ & _ & _ & _ & Hok).
  cbv zeta in Hok. rewrite Hok in He'. simpl in He'.
  unfold sortLeaderboard in He'. apply subseteq_take in He'. rewrite <- sort_perm in He'.
  apply mergeEntry_improves in He' as [Hin|[-> Hbest]]; [| | reflexivity | assumption].
  - split; [now left | now apply Hsame].
  - split; [| exact Hbest].
    right. exists payload. split; [reflexivity | split; [| reflexivity]].
    unfold storedName. now rewrite Hp, Hna.
Qed.



Lemma toFixed2_nonneg t : (0 <= t)%Q -> (0 <= toFixed2 t)%Q.
Proof.
  intros Ht. unfold toFixed2. destruct (Qle_bool _ t); [assumption |].
  assert (H : 0 <= Qfloor (t * inject_Z 100 + (1 # 2))).
  { change 0 with (Qfloor 0). apply Qfloor_resp_le. 
    assert (0 <= t * inject_Z 100)%Q by (apply Qmult_le_0_compat; [assumption | discriminate]).
    lra. }
  unfold Qle. cbn [Qnum Qden]. lia.
Qed.

Lemma submittedTime_nonneg payload t :
  submittedTime payload = Some t -> (0 <= t)%Q.
Proof.
  unfold submittedTime. destruct (default None _) as [[| |n| | |]|]; try discriminate.
  destruct (Qle_bool 0 n) eqn:E; [| discriminate]. intros [= <-]. now apply Qle_bool_iff.
Qed.

Lemma handleSubmit_wellFormed stored parsed now :
  Forall wellFormed stored ->
  Forall wellFormed (snd (handleSubmit questions stored parsed now)).
Proof.
  intros Hw. destruct (handleSubmit_cases questions stored parsed now) as [[e He]|Hok].
  { now rewrite He. }
  destruct Hok as (payload & playerName & rawName & answerMap & answered &
                   _ & _ & _ & Hs & _ & Hne & Hq & Hok).
  cbv zeta in Hok. rewrite Hok. simpl. rewrite Forall_forall. intros e He.
  unfold sortLeaderboard in He. apply subseteq_take in He. rewrite <- sort_perm in He.
  apply mergeEntry_members in He as [->|He]; [| rewrite Forall_forall in Hw; now apply Hw].
  pose proof (scoreAnswers_bounds answered answerMap) as Hsc.
  unfold answeredQuestionsOf in Hq. apply mapM_Some, Forall2_length in Hq.
  repeat split; simpl; try lia.
  - exact Hs.
  - unfold sanitizeName. rewrite length_take. lia.
  - destruct answerMap; [contradiction | simpl in Hq; lia].
  - destruct (submittedTime payload) as [t|] eqn:Ht; simpl; [| exact I].
    apply toFixed2_nonneg. eapply submittedTime_nonneg; eassumption.
Qed.

(** X8.  The handler writes only well-formed entries: when every stored
    entry has a name of 1 to 32 code units, a positive question count, a
    score from 0 to that count and a time that is null or not negative, so
    has every entry after any sequence of submissions. *)
Theorem entries_stay_well_formed stored requests :
  Forall wellFormed stored ->
  Forall wellFormed (runSubmissions questions stored requests).
Proof.
  unfold runSubmissions. revert stored.
  induction requests as [|r requests IH]; intros stored Hw; simpl.
  - exact Hw.
  - apply IH. now apply handleSubmit_wellFormed.
Qed.

Lemma lookupProp_app_other props key other v :
  key <> other -> lookupProp (props ++ [(other, v)]) key = lookupProp props key.
Proof.
  intros Hne. induction props as [|[k w] props IH]; simpl.
  - destruct (String.eqb_spec other key); congruence.
  - destruct (String.eqb k key); [reflexivity | exact IH].
Qed.

Lemma lookupProp_app_new props key v :
  lookupProp props key = None -> lookupProp (props ++ [(key, v)]) key = Some v.
Proof.
  induction props as [|[k w] props IH]; simpl.
  - now rewrite String.eqb_refl.
  - destruct (String.eqb k key); [discriminate | exact IH].
Qed.

(** X4.  A [totalTime] that is not a number, or is a negative number, counts
    as no time at all: the request is handled exactly as the same request
    without the property. *)
Theorem unusable_time_is_no_time stored props v now :
  lookupProp props "totalTime" = None ->
  (forall t, v = JNum t -> (t < 0)%Q) ->
  handleSubmit questions stored (Some (JObj (props ++ [("totalTime"%string, v)]))) now =
  handleSubmit questions stored (Some (JObj props)) now.
Proof.
  intros Habsent Hbad.
  assert (Htime : submittedTime (JObj (props ++ [("totalTime"%string, v)])) = None).
  { unfold submittedTime. simpl. rewrite (lookupProp_app_new _ _ _ Habsent). simpl.
    destruct v as [| |t| | |]; try reflexivity.
    destruct (Qle_bool 0 t) eqn:E; [| reflexivity].
    apply Qle_bool_iff in E. specialize (Hbad t eq_refl). lra. }
  assert (Htime' : submittedTime (JObj props) = None).
  { unfold submittedTime. simpl. now rewrite Habsent. }
  unfold handleSubmit. rewrite Htime, Htime'. simpl getProp.
  rewrite !lookupProp_app_other by discriminate. reflexivity.
Qed.

End MoreSubmit.

(** ** Requests and the leaderboard file *)

Section Requests.

Variable questions : list Question.

Lemma verdict_independent stored other parsed now now' :
  verdict (fst (handleSubmit questions stored parsed now)) =
  verdict (fst (handleSubmit questions other parsed now')).
Proof.
  unfold handleSubmit.
  destruct parsed as [payload|]; [| reflexivity].
  destruct (getProp payload "playerName") as [playerName|]; [| reflexivity].
  destruct (nameArgument playerName) as [[| | |rawName| |]|]; try reflexivity.
  destruct (sanitizeName rawName); [reflexivity |].
  destruct (normalizeAnswers questions _) as [[|kv answerMap]|]; try reflexivity.
  destruct (answeredQuestionsOf questions _); reflexivity.
Qed.

Lemma isOk_verdict r1 r2 : verdict r1 = verdict r2 -> isOk r1 = isOk r2.
Proof. destruct r1, r2; simpl; congruence. Qed.

Lemma rejected_keeps stored parsed now :
  isOk (fst (handleSubmit questions stored parsed now)) = false ->
  snd (handleSubmit questions stored parsed now) = stored.
Proof.
  destruct (handleSubmit questions stored parsed now) as [[sc total lb|e] stored'] eqn:E;
    [discriminate |].
  intros _. simpl. eapply handleSubmit_error_keeps; eassumption.
Qed.

(** X9.  What a submission is answered, apart from the leaderboard, is
    independent of the stored file and of the clock; a request that is not
    answered with 200 leaves the file as it was; so the file after a sequence
    of requests is the file after the accepted ones alone. *)
Theorem rejected_requests_leave_no_trace stored parsed now requests :
  (forall other now',
     verdict (fst (handleSubmit questions stored parsed now)) =
     verdict (fst (handleSubmit questions other parsed now'))) /\
  (isOk (fst (handleSubmit questions stored parsed now)) = false ->
   snd (handleSubmit questions stored parsed now) = stored) /\
  runSubmissions questions stored requests =
  runSubmissions questions stored
    (List.filter (fun r => isOk (fst (handleSubmit questions stored (body r) (clock r))))
       requests).
Proof.
  split; [intros other now'; apply verdict_independent |].
  split; [apply rejected_keeps |].
  unfold runSubmissions. revert stored.
  induction requests as [|r requests IH]; intros stored; [reflexivity |].
  cbn [fold_left List.filter].
  assert (Hext : forall file,
            List.filter (fun r0 => isOk (fst (handleSubmit questions file (body r0) (clock r0))))
              requests =
            List.filter (fun r0 => isOk (fst (handleSubmit questions stored (body r0) (clock r0))))
              requests).
  { intros file. apply filter_ext. intros r0. apply isOk_verdict, verdict_independent. }
  destruct (isOk (fst (handleSubmit questions stored (body r) (clock r)))) eqn:Hok.
  - cbn [fold_left]. rewrite IH. now rewrite Hext.
  - rewrite (rejected_keeps _ _ _ Hok). apply IH.
Qed.

Lemma merge_lower_keeps stored sc T newEntry :
  conforming stored ->
  length stored = 25%nat ->
  (forall e, e ∈ stored -> sc < score e) ->
  score newEntry = sc ->
  sortLeaderboard (mergeEntry stored sc T newEntry) = stored.
Proof.
  intros [Hlen Hsorted] Hfull Hhigher Hsc. unfold mergeEntry.
  destruct (list_find _ stored) as [[i current]|] eqn:Hfind.
  - apply list_find_Some in Hfind as (Hi & _ & _).
    assert (Hcur : sc < score current).
    { apply Hhigher. eapply list_elem_of_lookup_2; eassumption. }
    replace (score current <? sc) with false by (symmetry; apply Z.ltb_ge; lia).
    replace (sc =? score current) with false by (symmetry; apply Z.eqb_neq; lia).
    simpl. apply sortLeaderboard_conforming_id. now split.
  - unfold sortLeaderboard. rewrite sort_sorted_id.
    + rewrite take_app_length'; [reflexivity | now symmetry].
    + apply StronglySorted_app_2; [| exact Hsorted | repeat constructor].
      intros e x He Hx. apply list_elem_of_singleton in Hx as ->.
      left. rewrite Hsc. now apply Hhigher.
Qed.

(** X10.  On a ranked board of 25 entries that all have a higher score, an
    accepted submission is answered with its score and the board as it was:
    nothing is stored for it. *)
Theorem full_board_turns_away_lower stored parsed now sc total lb stored' :
  conforming stored ->
  length stored = 25%nat ->
  (forall e, e ∈ stored -> sc < score e) ->
  handleSubmit questions stored parsed now = (Ok200 sc total lb, stored') ->
  stored' = stored /\ lb = stored.
Proof.
  intros Hconf Hfull Hhigher H.
  destruct (handleSubmit_cases questions stored parsed now) as [[e He]|Hok].
  { rewrite He in H. discriminate. }
  destruct Hok as (payload & playerName & rawName & answerMap & answered &
                   _ & _ & _ & _ & _ & _ & _ & Hok).
  cbv zeta in Hok. rewrite Hok in H. injection H as <- <- <- <-.
  split; now apply merge_lower_keeps.
Qed.

End Requests.



(** ** Names: blank names and the shape of a sanitized name *)

Lemma trimStart_blank s : trimStart s = [] <-> blank s.
Proof.
  unfold blank. induction s as [|c s IH]; simpl; [split; [constructor | reflexivity] |].
  destruct (isWhiteSpace c) eqn:E.
  - rewrite IH. split; [now constructor | now inversion 1].
  - split; [discriminate | inversion 1; congruence].
Qed.

Lemma trimEnd_blank s : blank (trimEnd s) -> trimEnd s = [].
Proof.
  unfold blank. induction s as [|c s IH]; simpl; [reflexivity |].
  destruct (trimEnd s) as [|d t].
  - destruct (isWhiteSpace c) eqn:E; [reflexivity |]. inversion 1; congruence.
  - intros H. apply Forall_cons in H as [_ H]. specialize (IH H). discriminate.
Qed.

Lemma trimEnd_nil s : trimEnd s = [] <-> blank s.
Proof.
  unfold blank. induction s as [|c s IH]; simpl; [split; [constructor | reflexivity] |].
  destruct (trimEnd s) as [|d t].
  - destruct (isWhiteSpace c) eqn:E.
    + split; [intros _; constructor; [assumption | now apply IH] | reflexivity].
    + split; [discriminate | inversion 1; congruence].
  - split; [discriminate |]. intros H. apply Forall_cons in H as [_ H].
    apply IH in H. discriminate.
Qed.

Lemma trim_blank s : trim s = [] <-> blank s.
Proof.
  unfold trim. rewrite trimStart_blank. split.
  - intros H. now apply trimEnd_nil, trimEnd_blank.
  - intros H. apply trimEnd_nil in H. rewrite H. constructor.
Qed.

Lemma replaceRuns_blank b s : blank (replaceRuns b s) <-> blank s.
Proof.
  unfold blank. revert b. induction s as [|c s IH]; intros b; simpl; [reflexivity |].
  destruct (isWhiteSpace c) eqn:E.
  - destruct b.
    + rewrite IH. split; [now constructor | now inversion 1].
    + split; intros H; apply Forall_cons in H as [_ H]; constructor;
        try reflexivity; try assumption; now apply (IH true).
  - split; inversion 1; congruence.
Qed.

(** X11.  [sanitizeName] returns the empty string, on which the server
    answers with the name error, exactly for the names of white space only;
    these are the names whose [trim] is empty, which the form of the page
    refuses. *)
Theorem blank_names_are_the_rejected_ones raw :
  (sanitizeName raw = [] <-> blank raw) /\ (trim raw = [] <-> sanitizeName raw = []).
Proof.
  assert (H : sanitizeName raw = [] <-> blank raw).
  { unfold sanitizeName. rewrite <- (replaceRuns_blank false raw), <- trim_blank.
    destruct (trim (replaceRuns false raw)); simpl; [tauto | split; discriminate]. }
  split; [exact H |]. now rewrite H, trim_blank.
Qed.

Lemma tidy_replaceRuns b s : tidy b (replaceRuns b s) = true.
Proof.
  revert b. induction s as [|c s IH]; intros b; simpl; [reflexivity |].
  destruct (isWhiteSpace c) eqn:E.
  - destruct b; [apply IH |]. simpl. apply IH.
  - simpl. rewrite E. apply IH.
Qed.

Lemma tidy_trimEnd b s : tidy b s = true -> tidy b (trimEnd s) = true.
Proof.
  revert b. induction s as [|c s IH]; intros b; simpl; [reflexivity |].
  destruct (isWhiteSpace c) eqn:E.
  - intros H. apply andb_true_iff in H as [H1 H2]. specialize (IH true H2).
    destruct (trimEnd s) as [|d t]; [reflexivity |].
    cbn [tidy]. rewrite E, H1. exact IH.
  - intros H. specialize (IH false H).
    destruct (trimEnd s) as [|d t]; cbn [tidy]; rewrite E; [reflexivity | exact IH].
Qed.

Lemma tidy_trimStart b s : tidy b s = true -> tidy true (trimStart s) = true.
Proof.
  revert b. induction s as [|c s IH]; intros b; simpl; [reflexivity |].
  destruct (isWhiteSpace c) eqn:E.
  - intros H. apply andb_true_iff in H as [_ H]. now apply (IH true).
  - intros H. simpl. now rewrite E.
Qed.

Lemma tidy_take b n s : tidy b s = true -> tidy b (take n s) = true.
Proof.
  revert b n. induction s as [|c s IH]; intros b n; [now destruct n |].
  destruct n as [|n]; [reflexivity |]. simpl.
  destruct (isWhiteSpace c).
  - intros H. apply andb_true_iff in H as [H1 H2]. rewrite H1. now apply IH.
  - apply IH.
Qed.

Lemma tidy_sanitizeName s : tidy true (sanitizeName s) = true.
Proof.
  unfold sanitizeName, trim. apply tidy_take.
  apply (tidy_trimStart false), tidy_trimEnd, tidy_replaceRuns.
Qed.

Lemma replaceRuns_tidy b s : tidy b s = true -> replaceRuns b s = s.
Proof.
  revert b. induction s as [|c s IH]; intros b; simpl; [reflexivity |].
  destruct (isWhiteSpace c) eqn:E.
  - intros H. apply andb_true_iff in H as [H1 H2]. apply andb_true_iff in H1 as [Hc Hb].
    apply N.eqb_eq in Hc. apply negb_true_iff in Hb. subst b c. now rewrite (IH true H2).
  - intros H. now rewrite (IH false H).
Qed.

Lemma trimStart_tidy s : tidy true s = true -> trimStart s = s.
Proof.
  destruct s as [|c s]; simpl; [reflexivity |].
  destruct (isWhiteSpace c); [| reflexivity].
  rewrite andb_false_r. discriminate.
Qed.

Lemma trimEnd_length s : (length (trimEnd s) <= length s)%nat.
Proof.
  induction s as [|c s IH]; simpl; [lia |].
  destruct (trimEnd s); [destruct (isWhiteSpace c) |]; simpl in *; lia.
Qed.

Lemma trimEnd_trimEnd s : trimEnd (trimEnd s) = trimEnd s.
Proof.
  induction s as [|c s IH]; simpl; [reflexivity |].
  destruct (trimEnd s) as [|d t] eqn:Ht.
  - destruct (isWhiteSpace c) eqn:E; [reflexivity |]. simpl. now rewrite E.
  - change (trimEnd (c :: d :: t)) with
      (match trimEnd (d :: t) with [] => if isWhiteSpace c then [] else [c] | u => c :: u end).
    now rewrite IH.
Qed.

Lemma trimEnd_trimStart s : trimEnd s = s -> trimEnd (trimStart s) = trimStart s.
Proof.
  induction s as [|c s IH]; [reflexivity |]. intros H.
  cbn [trimStart]. destruct (isWhiteSpace c) eqn:E; [| exact H].
  apply IH. simpl in H. rewrite E in H.
  destruct (trimEnd s); [discriminate | now injection H].
Qed.

(** X12.  A sanitized name has no white space but single spaces between
    other code units, and none at its start.  Sanitizing it again only trims
    its end, and changes nothing when the name was not cut at 32 code
    units. *)
Theorem sanitized_names_are_tidy raw :
  tidy true (sanitizeName raw) = true /\
  sanitizeName (sanitizeName raw) = trimEnd (sanitizeName raw) /\
  ((length (trim (replaceRuns false raw)) <= 32)%nat ->
   sanitizeName (sanitizeName raw) = sanitizeName raw).
Proof.
  pose proof (tidy_sanitizeName raw) as Ht.
  assert (Htwice : sanitizeName (sanitizeName raw) = trimEnd (sanitizeName raw)).
  { unfold sanitizeName at 1. rewrite (replaceRuns_tidy false).
    - unfold trim. rewrite trimStart_tidy by now apply tidy_trimEnd.
      apply take_ge. pose proof (trimEnd_length (sanitizeName raw)).
      assert (length (sanitizeName raw) <= 32)%nat
        by (unfold sanitizeName; rewrite length_take; lia). lia.
    - destruct (sanitizeName raw) as [|c s]; [reflexivity |].
      simpl in Ht |- *. destruct (isWhiteSpace c); [| exact Ht].
      rewrite andb_false_r in Ht. discriminate. }
  split; [exact Ht | split; [exact Htwice |]].
  intros Hshort. rewrite Htwice. unfold sanitizeName. rewrite take_ge by assumption.
  unfold trim. apply trimEnd_trimStart, trimEnd_trimEnd.
Qed.

(** ** Submissions that are accepted *)

Lemma filter_all_id {A} (f : A -> bool) l :
  Forall (fun x => f x = true) l -> List.filter f l = l.
Proof.
  induction 1 as [|x l Hx _ IH]; simpl; [reflexivity |]. now rewrite Hx, IH.
Qed.

Lemma keyDiffers_sorted_id refs :
  StronglySorted keyDiffers refs -> firstPerKey refs = refs.
Proof.
  induction 1 as [|r rest Hs IH Hall]; simpl; [reflexivity |].
  rewrite IH. f_equal. apply filter_all_id.
  eapply Forall_impl; [exact Hall |]. intros kv Hkv. unfold keyDiffers in Hkv.
  apply negb_true_iff, not_true_iff_false. intros He. apply Qeq_bool_eq in He.
  apply Hkv. now symmetry.
Qed.

Lemma keyDiffers_by_id {A} (key : A -> Z) (value : A -> Q) (l : list A) :
  NoDup (key <$> l) ->
  StronglySorted keyDiffers ((fun a => (inject_Z (key a), value a)) <$> l).
Proof.
  induction l as [|a l IH]; intros Hnd; [constructor |].
  rewrite fmap_cons in Hnd. rewrite fmap_cons. apply NoDup_cons in Hnd as [Hnotin Hnd].
  constructor; [now apply IH |].
  apply Forall_fmap, Forall_forall. intros b Hb. unfold keyDiffers. simpl.
  intros He. apply Hnotin. unfold Qeq in He. simpl in He.
  replace (key a) with (key b) by lia. now apply list_elem_of_fmap_2.
Qed.

Lemma storedName_named payload :
  storedName payload <> [] ->
  exists playerName rawName,
    getProp payload "playerName" = Some playerName /\
    nameArgument playerName = Some (JStr rawName) /\
    sanitizeName rawName <> [].
Proof.
  unfold storedName. destruct (getProp payload "playerName") as [playerName|]; [| congruence].
  destruct (nameArgument playerName) as [[| | |rawName| |]|] eqn:Hn; try congruence.
  intros Hs. exists playerName, rawName. auto.
Qed.

Section Accept.

Variable questions : list Question.

Lemma normalizeAnswers_complete items :
  items <> [] ->
  length (validRefs questions 0 items) = length items ->
  StronglySorted keyDiffers (validRefs questions 0 items) ->
  normalizeAnswers questions (Some (JArr items)) = Some (validRefs questions 0 items).
Proof.
  intros Hne Hlen Hs. rewrite normalizeAnswers_spec. unfold distinctValid.
  rewrite (keyDiffers_sorted_id _ Hs). now rewrite decide_True.
Qed.

(** A submission whose entries are all valid and for different questions is
    accepted, with one point per correct entry. *)
Lemma submission_scored stored payload now items :
  NoDup (id <$> questions) ->
  storedName payload <> [] ->
  getProp payload "answers" = Some (Some (JArr items)) ->
  items <> [] ->
  length (validRefs questions 0 items) = length items ->
  StronglySorted keyDiffers (validRefs questions 0 items) ->
  exists lb,
    handleSubmit questions stored (Some payload) now =
    (Ok200 (pointsFrom questions 0 items) (Z.of_nat (length items)) lb, lb).
Proof.
  intros Hids Hname Hans Hne Hlen Hs.
  destruct (storedName_named payload Hname) as (playerName & rawName & Hp & Hn & Hsan).
  pose proof (normalizeAnswers_complete items Hne Hlen Hs) as Hnorm.
  destruct (accepted_answers_resolve questions _ _ Hnorm) as [answered Hq].
  destruct (scoreAnswers_sum questions _ _ Hs Hq) as [Hsc Hl].
  eexists.
  rewrite (handleSubmit_accept questions stored payload now playerName rawName
             (validRefs questions 0 items) answered Hp Hn Hsan).
  - rewrite Hsc, Hl, Hlen, <- (pointsFrom_refs questions Hids). reflexivity.
  - rewrite Hans. exact Hnorm.
  - intros E. rewrite E in Hlen. destruct items; [contradiction | discriminate].
  - exact Hq.
Qed.

(** Bare numbers denote the choices for the bank questions at their
    positions. *)
Lemma validRefs_numbers ns : forall index,
  (index + length ns <= length questions)%nat ->
  validRefs questions index (JNum <$> ns) =
  (fun qn => (inject_Z (id qn.1), qn.2)) <$> zip (drop index questions) ns.
Proof.
  induction ns as [|n ns IH]; intros index Hlen.
  - now rewrite zip_with_nil_r.
  - rewrite fmap_cons. cbn [validRefs entryRef]. simpl in Hlen.
    destruct (questions !! index) as [q|] eqn:Hq; [| apply lookup_ge_None in Hq; lia].
    rewrite (drop_S _ _ _ Hq). simpl. f_equal. apply IH. lia.
Qed.

Lemma legacyReduce_points answers ns : forall index acc,
  (index + length ns = length questions)%nat ->
  (forall j n, ns !! j = Some n -> answers !! (index + j)%nat = Some (JNum n)) ->
  legacyReduce index (drop index questions) answers acc =
  acc + pointsFrom questions index (JNum <$> ns).
Proof.
  induction ns as [|n ns IH]; intros index acc Hlen Hall.
  - simpl in Hlen. rewrite drop_ge by lia. simpl. lia.
  - simpl in Hlen.
    destruct (questions !! index) as [q|] eqn:Hq; [| apply lookup_ge_None in Hq; lia].
    rewrite (drop_S _ _ _ Hq). rewrite fmap_cons. cbn [legacyReduce pointsFrom].
    rewrite (IH (S index)).
    + unfold awarded, referenced. rewrite Hq.
      specialize (Hall 0%nat n eq_refl). rewrite Nat.add_0_r in Hall. rewrite Hall.
      unfold answerIs. lia.
    + lia.
    + intros j m Hj. replace (S index + j)%nat with (index + S j)%nat by lia.
      now apply (Hall (S j)).
Qed.

(** X13.  The answers of the first version of the page, one number per
    question in the order of the bank, are still accepted: over a bank with
    distinct ids, and for a request with a name, the handler answers 200
    with the score and the total that the first handler computed. *)
Theorem positional_answers_score_as_before stored payload now ns sc total :
  NoDup (id <$> questions) ->
  storedName payload <> [] ->
  getProp payload "answers" = Some (Some (JArr (JNum <$> ns))) ->
  ns <> [] ->
  legacyResult questions (Some (JArr (JNum <$> ns))) = Some (sc, total) ->
  exists lb, handleSubmit questions stored (Some payload) now = (Ok200 sc total lb, lb).
Proof.
  intros Hids Hname Hans Hne Hleg.
  unfold legacyResult, legacyAnswers in Hleg. cbv zeta in Hleg.
  rewrite length_fmap in Hleg.
  destruct (Nat.eqb_spec (length ns) (length questions)) as [Hlen|]; [| discriminate].
  simpl in Hleg. injection Hleg as <- <-.
  pose proof (validRefs_numbers ns 0 ltac:(lia)) as Hrefs. rewrite drop_0 in Hrefs.
  destruct (submission_scored stored payload now (JNum <$> ns) Hids Hname Hans) as [lb Hlb].
  - now destruct ns.
  - rewrite Hrefs, !length_fmap, length_zip. lia.
  - rewrite Hrefs.
    assert (Hz : NoDup ((fun qn : Question * Q => id qn.1) <$> zip questions ns)).
    { change (NoDup ((id ∘ fst) <$> zip questions ns)).
      rewrite (list_fmap_compose fst id). rewrite fst_zip by lia. exact Hids. }
    exact (keyDiffers_by_id (fun qn : Question * Q => id qn.1) snd _ Hz).
  - exists lb. rewrite Hlb, length_fmap, Hlen. do 3 f_equal.
    rewrite <- (drop_0 questions) at 2.
    rewrite (legacyReduce_points (JNum <$> ns) ns 0 0); [lia | lia |].
    intros j n Hj. rewrite list_lookup_fmap. simpl. now rewrite Hj.
Qed.

End Accept.

(** ** The shuffle *)

(** X14.  Whatever [Math.random] returns, [shuffleQuestions] returns a
    reordering of its argument: the same length, the same questions, and
    distinct ids when the ids were distinct. *)
Theorem shuffle_keeps_every_question (random : nat -> Q) (bank : list Question) :
  Permutation (shuffleQuestions random bank) bank /\
  length (shuffleQuestions random bank) = length bank /\
  (forall q, q ∈ shuffleQuestions random bank <-> q ∈ bank) /\
  (NoDup (id <$> bank) -> NoDup (id <$> shuffleQuestions random bank)).
Proof.
  pose proof (shuffleQuestions_perm random bank) as Hp.
  split; [exact Hp | split; [now apply Permutation_length | split]].
  - intros q. now rewrite Hp.
  - intros Hnd. now rewrite Hp.
Qed.

(** ** The page during a session *)

Module PageFacts.
Import Client Page ClientFacts.

Lemma arraySet_inside {A} (array : list (option A)) i v :
  (i < length array)%nat -> arraySet array i v = <[i := Some v]> array.
Proof.
  intros Hi. unfold arraySet. now destruct (Nat.ltb_spec i (length array)); [| lia].
Qed.

Lemma arraySet_twice {A} (array : list (option A)) i a b :
  arraySet (arraySet array i a) i b = arraySet array i b.
Proof.
  unfold arraySet at 2 3. destruct (Nat.ltb_spec i (length array)) as [Hlt|Hge].
  - unfold arraySet. rewrite length_insert.
    destruct (Nat.ltb_spec i (length array)); [| lia].
    apply list_insert_insert_eq.
  - unfold arraySet. rewrite !length_app, length_replicate. simpl.
    destruct (Nat.ltb_spec i (length array + (i - length array + 1))); [| lia].
    rewrite insert_app_r_alt by lia.
    rewrite insert_app_r_alt; rewrite length_replicate; [| lia].
    replace (i - length array - (i - length array))%nat with 0%nat by lia. reflexivity.
Qed.

(** X15.  Choosing again on a question replaces the choice: the state after
    two selections is the state after the second alone, answer, feedback and
    buttons. *)
Theorem last_selection_wins s first second :
  selectChoice (selectChoice s first) second = selectChoice s second.
Proof.
  unfold selectChoice, handleChoiceSelection.
  destruct (questions s !! currentIndex s) as [q|] eqn:Hq; [| now rewrite Hq].
  cbn [updateNavigationButtons questions currentIndex answers feedback originalQuestions
       nextDisabled prevDisabled nextLabel].
  rewrite Hq. unfold updateNavigationButtons, answered, atLast. simpl.
  now rewrite !arraySet_twice.
Qed.

Lemma coherent_shown s :
  length (answers s) = length (questions s) ->
  length (feedback s) = length (questions s) ->
  Permutation (questions s) (originalQuestions s) ->
  (forall i q, questions s !! i = Some q -> agreeAt s i q) ->
  (forall i, (i < currentIndex s)%nat -> is_Some (choiceAt s i)) ->
  coherent (updateNavigationButtons s).
Proof.
  intros Ha Hf Hp Hagree Hbefore. repeat split; assumption.
Qed.

Lemma prepareNewQuiz_coherent random s :
  originalQuestions s <> [] -> coherent (prepareNewQuiz random s).
Proof.
  intros Ho. unfold prepareNewQuiz.
  destruct (originalQuestions s) as [|q0 qs] eqn:E; [contradiction |].
  pose proof (shuffleQuestions_perm random (q0 :: qs)) as Hp.
  pose proof (Permutation_length Hp) as Hl. simpl in Hl.
  cbv zeta. unfold renderQuestion. cbn [questions currentIndex].
  destruct (shuffleQuestions random (q0 :: qs) !! 0%nat) as [shown|] eqn:E0;
    [| apply lookup_ge_None in E0; lia].
  apply coherent_shown; cbn [questions answers feedback originalQuestions currentIndex].
  - apply length_replicate.
  - apply length_replicate.
  - exact Hp.
  - intros i q Hq. apply lookup_lt_Some in Hq. unfold agreeAt.
    cbn [answers feedback]. now rewrite !lookup_replicate_2 by assumption.
  - intros i Hi. lia.
Qed.

Lemma coherent_moved s i :
  coherent s ->
  (i < length (questions s))%nat ->
  (forall j, (j < i)%nat -> is_Some (choiceAt s j)) ->
  coherent (renderQuestion (setIndex s i)).
Proof.
  intros (Ha & Hf & Hp & Hagree & _ & _) Hi Hbefore. unfold renderQuestion.
  cbn [setIndex questions currentIndex].
  destruct (questions s !! i) as [shown|] eqn:E; [| apply lookup_ge_None in E; lia].
  now apply coherent_shown.
Qed.

Lemma selectChoice_coherent s choiceIndex :
  inSession s -> coherent s -> coherent (selectChoice s choiceIndex).
Proof.
  intros (_ & Hi & _ & _) (Ha & Hf & Hp & Hagree & Hbefore & _).
  unfold selectChoice, handleChoiceSelection.
  destruct (questions s !! currentIndex s) as [q|] eqn:Hq;
    [| apply lookup_ge_None in Hq; lia].
  cbv zeta. rewrite !arraySet_inside by lia.
  apply coherent_shown; cbn [questions answers feedback originalQuestions currentIndex].
  - now rewrite length_insert.
  - now rewrite length_insert.
  - exact Hp.
  - intros j q' Hq'. specialize (Hagree j q' Hq'). unfold agreeAt in *.
    cbn [answers feedback].
    destruct (decide (j = currentIndex s)) as [->|Hne].
    + rewrite !list_lookup_insert_eq by lia. simpl. unfold statusFor.
      rewrite Hq in Hq'. now injection Hq' as <-.
    + now rewrite !list_lookup_insert_ne by auto.
  - intros j Hj. specialize (Hbefore j Hj). unfold choiceAt in *. cbn [answers].
    rewrite list_lookup_insert_ne by lia. exact Hbefore.
Qed.

Lemma answered_choiceAt s : answered s = true -> is_Some (choiceAt s (currentIndex s)).
Proof.
  unfold answered, choiceAt. destruct (answers s !! currentIndex s) as [[c|]|]; eauto; discriminate.
Qed.

Lemma session_coherent s : session s -> coherent s.
Proof.
  induction 1 as [random s Ho | s e Hs IH].
  - now apply prepareNewQuiz_coherent.
  - pose proof (session_inSession s Hs) as Hin.
    destruct Hin as (Ho & Hi & Hn & Hpd).
    destruct e as [choiceIndex | | | random]; simpl.
    + apply selectChoice_coherent; [repeat split; assumption | exact IH].
    + unfold advance. destruct (nextDisabled s) eqn:Hd; [exact IH |].
      unfold onNextClick. destruct (atLast s) eqn:El; [exact IH |]. simpl.
      destruct IH as (Ha & Hf & Hp & Hagree & Hbefore & Hlabel).
      apply coherent_moved; [repeat split; assumption | |].
      * unfold atLast in El. apply Z.eqb_neq in El. lia.
      * intros j Hj. destruct (decide (j = currentIndex s)) as [->|Hne].
        -- apply answered_choiceAt. symmetry in Hn. now apply negb_false_iff in Hn.
        -- apply Hbefore. lia.
    + unfold retreat. destruct (prevDisabled s); [exact IH |].
      unfold onPrevClick. destruct (Nat.eqb_spec (currentIndex s) 0); [exact IH |].
      destruct IH as (Ha & Hf & Hp & Hagree & Hbefore & Hlabel).
      apply coherent_moved; [repeat split; assumption | lia |].
      intros j Hj. apply Hbefore. lia.
    + now apply prepareNewQuiz_coherent.
Qed.

(** X16.  In every state of a session the page holds one answer slot and
    one feedback slot per question, the questions are a reordering of the
    loaded ones, each slot is empty or holds a choice with the feedback this
    choice earns, every question before the current one is answered, the
    label of the next button tells whether the last question is shown, the
    current index is inside the questions and the buttons are disabled as
    [updateNavigationButtons] rules. *)
Theorem session_stays_coherent s : session s -> coherent s /\ inSession s.
Proof.
  intros Hs. split; [now apply session_coherent | now apply session_inSession].
Qed.


Lemma answerPayload_lookup s i :
  answerPayload s !! i = (fun q => (id q, choiceAt s i)) <$> questions s !! i.
Proof. unfold answerPayload. apply list_lookup_imap. Qed.

Lemma answerPayload_length s : length (answerPayload s) = length (questions s).
Proof. unfold answerPayload. apply length_imap. Qed.

Lemma submitBody_unanswered s playerName totalTime i :
  (i < length (questions s))%nat -> choiceAt s i = None ->
  submitBody s playerName totalTime = None.
Proof.
  intros Hi Hc. unfold submitBody.
  match goal with |- context [mapM ?f _] => set (number := f) end.
  destruct (mapM number (answerPayload s)) as [entries|] eqn:E; [| reflexivity]. exfalso.
  apply mapM_Some in E.
  destruct (lookup_lt_is_Some_2 (questions s) i Hi) as [q Hq].
  assert (Hp : answerPayload s !! i = Some (id q, None)).
  { rewrite answerPayload_lookup, Hq. simpl. now rewrite Hc. }
  destruct (Forall2_lookup_l _ _ _ _ _ E Hp) as (e & _ & He). discriminate.
Qed.

(** X17.  [submitAnswers] sends nothing exactly when some question has no
    numeric answer.  In a session this never happens: when a click on the
    next button sets the submission off, every question is answered and the
    request is sent. *)
Theorem submission_needs_every_answer s playerName totalTime :
  (submitBody s playerName totalTime = None <->
   exists i, (i < length (questions s))%nat /\ choiceAt s i = None) /\
  (session s -> snd (advance s) = SubmitAnswers ->
   fst (advance s) = s /\ is_Some (submitBody s playerName totalTime)).
Proof.
  assert (Hguard : submitBody s playerName totalTime = None ->
                   exists i, (i < length (questions s))%nat /\ choiceAt s i = None).
  { unfold submitBody.
    match goal with |- context [mapM ?f _] => set (number := f) end.
    destruct (mapM number (answerPayload s)) as [entries|] eqn:E; [discriminate |].
    intros _. apply mapM_None in E. apply Exists_exists in E as (e & Hin & He).
    apply list_elem_of_lookup in Hin as [i Hi].
    rewrite answerPayload_lookup in Hi.
    destruct (questions s !! i) as [q|] eqn:Hq; [| discriminate].
    simpl in Hi. injection Hi as <-. exists i. split.
    - now apply lookup_lt_Some in Hq.
    - unfold number in He. simpl in He. now destruct (choiceAt s i). }
  split.
  { split; [exact Hguard |]. intros (i & Hi & Hc). eapply submitBody_unanswered; eassumption. }
  intros Hs Hsubmit.
  destruct (session_inSession s Hs) as (_ & Hi & Hn & _).
  destruct (session_coherent s Hs) as (_ & _ & _ & _ & Hbefore & _).
  unfold advance in *. destruct (nextDisabled s) eqn:Hd; [discriminate |].
  unfold onNextClick in *. destruct (atLast s) eqn:El; [| discriminate].
  split; [reflexivity |].
  apply not_eq_None_Some. intros E.
  apply Hguard in E as (i & Hlt & Hc).
  assert (Hsome : is_Some (choiceAt s i)).
  { unfold atLast in El. apply Z.eqb_eq in El.
    destruct (decide (i = currentIndex s)) as [->|Hne].
    - apply answered_choiceAt. symmetry in Hn. now apply negb_false_iff in Hn.
    - apply Hbefore. lia. }
  rewrite Hc in Hsome. now destruct Hsome.
Qed.


(** In a session the buttons and the label are as [updateNavigationButtons]
    last set them. *)
Lemma shown_state s : inSession s -> coherent s -> updateNavigationButtons s = s.
Proof.
  intros (_ & _ & Hn & Hpd) (_ & _ & _ & _ & _ & Hlabel).
  destruct s as [oq qs an fb i nd pd nl].
  unfold updateNavigationButtons, answered, atLast in *. simpl in *. now subst nd pd nl.
Qed.

Lemma moved_twice s k j :
  updateNavigationButtons (setIndex (updateNavigationButtons (setIndex s k)) j) =
  updateNavigationButtons (setIndex s j).
Proof. reflexivity. Qed.

Lemma moved_nowhere s : updateNavigationButtons (setIndex s (currentIndex s)) = updateNavigationButtons s.
Proof. now destruct s. Qed.

Lemma renderQuestion_inside s :
  (currentIndex s < length (questions s))%nat -> renderQuestion s = updateNavigationButtons s.
Proof.
  intros Hi. unfold renderQuestion.
  now destruct (questions s !! currentIndex s) eqn:E; [| apply lookup_ge_None in E; lia].
Qed.

(** X19.  In a session, going to the next question and back, or to the
    previous question and forth, returns to the very same state: no answer
    or feedback is lost on the way. *)
Theorem back_and_forth s :
  session s ->
  (nextDisabled s = false -> atLast s = false -> retreat (fst (advance s)) = s) /\
  (prevDisabled s = false -> fst (advance (retreat s)) = s).
Proof.
  intros Hs. pose proof (session_inSession s Hs) as Hin.
  pose proof (session_coherent s Hs) as Hco.
  pose proof (shown_state s Hin Hco) as Hshown.
  destruct Hin as (_ & Hi & Hn & Hpd). destruct Hco as (_ & _ & _ & _ & Hbefore & _).
  split.
  - intros Hd Hl. unfold advance. rewrite Hd. unfold onNextClick. rewrite Hl. cbn [fst].
    unfold atLast in Hl. apply Z.eqb_neq in Hl.
    rewrite renderQuestion_inside by (simpl; lia).
    unfold retreat, onPrevClick.
    cbn [prevDisabled currentIndex updateNavigationButtons setIndex].
    replace (currentIndex s + 1 =? 0)%nat with false by (symmetry; apply Nat.eqb_neq; lia).
    replace (currentIndex s + 1 - 1)%nat with (currentIndex s) by lia.
    rewrite renderQuestion_inside by (simpl; lia).
    change (updateNavigationButtons
              (setIndex (updateNavigationButtons (setIndex s (currentIndex s + 1)))
                 (currentIndex s)) = s).
    now rewrite moved_twice, moved_nowhere.
  - intros Hd. unfold retreat. rewrite Hd. unfold onPrevClick.
    rewrite Hd in Hpd. symmetry in Hpd. rewrite Hpd. apply Nat.eqb_neq in Hpd.
    rewrite renderQuestion_inside by (simpl; lia).
    unfold advance, onNextClick.
    cbn [nextDisabled currentIndex updateNavigationButtons setIndex].
    assert (Ha : answered (setIndex s (currentIndex s - 1)) = true).
    { destruct (Hbefore (currentIndex s - 1)%nat ltac:(lia)) as [c Hc].
      unfold choiceAt in Hc. unfold answered. cbn [setIndex answers currentIndex].
      now destruct (answers s !! (currentIndex s - 1)%nat) as [[c'|]|]. }
    rewrite Ha. cbn [negb].
    assert (Hl : atLast (updateNavigationButtons (setIndex s (currentIndex s - 1))) = false).
    { unfold atLast. cbn [updateNavigationButtons setIndex questions currentIndex].
      apply Z.eqb_neq. lia. }
    rewrite Hl. cbn [fst currentIndex updateNavigationButtons setIndex].
    replace (currentIndex s - 1 + 1)%nat with (currentIndex s) by lia.
    rewrite renderQuestion_inside by (simpl; lia).
    change (updateNavigationButtons
              (setIndex (updateNavigationButtons (setIndex s (currentIndex s - 1)))
                 (currentIndex s)) = s).
    now rewrite moved_twice, moved_nowhere.
Qed.

Lemma no_feedback_marked n : List.filter markedCorrect (replicate n None) = [].
Proof. induction n as [|n IH]; [reflexivity | exact IH]. Qed.

(** X20.  [prepareNewQuiz] on loaded questions starts afresh: the same
    loaded questions, reordered; the first question shown; no answer and no
    question marked correct; both buttons disabled; and nothing to
    submit. *)
Theorem restart_gives_a_fresh_quiz random s playerName totalTime :
  originalQuestions s <> [] ->
  originalQuestions (prepareNewQuiz random s) = originalQuestions s /\
  Permutation (questions (prepareNewQuiz random s)) (originalQuestions s) /\
  currentIndex (prepareNewQuiz random s) = 0%nat /\
  (forall i, choiceAt (prepareNewQuiz random s) i = None) /\
  correctCount (prepareNewQuiz random s) = 0 /\
  nextDisabled (prepareNewQuiz random s) = true /\
  prevDisabled (prepareNewQuiz random s) = true /\
  submitBody (prepareNewQuiz random s) playerName totalTime = None.
Proof.
  intros Ho.
  assert (Hshape : exists shuffled,
             Permutation shuffled (originalQuestions s) /\
             prepareNewQuiz random s =
             updateNavigationButtons
               {| originalQuestions := originalQuestions s;
                  questions := shuffled;
                  answers := replicate (length shuffled) None;
                  feedback := replicate (length shuffled) None;
                  currentIndex := 0;
                  nextDisabled := nextDisabled s;
                  prevDisabled := prevDisabled s;
                  nextLabel := nextLabel s |}).
  { unfold prepareNewQuiz. destruct (originalQuestions s) as [|q0 qs] eqn:E; [contradiction |].
    pose proof (shuffleQuestions_perm random (q0 :: qs)) as Hp.
    exists (shuffleQuestions random (q0 :: qs)). split; [exact Hp |].
    cbv zeta. apply renderQuestion_inside. cbn [questions currentIndex].
    apply Permutation_length in Hp. rewrite Hp. simpl. lia. }
  destruct Hshape as (shuffled & Hp & ->).
  assert (Hlen : (0 < length shuffled)%nat).
  { apply Permutation_length in Hp. rewrite Hp.
    destruct (originalQuestions s); [contradiction | simpl; lia]. }
  assert (Hnone : forall i,
             choiceAt (updateNavigationButtons
               {| originalQuestions := originalQuestions s;
                  questions := shuffled;
                  answers := replicate (length shuffled) None;
                  feedback := replicate (length shuffled) None;
                  currentIndex := 0;
                  nextDisabled := nextDisabled s;
                  prevDisabled := prevDisabled s;
                  nextLabel := nextLabel s |}) i = None).
  { intros i. unfold choiceAt. cbn [updateNavigationButtons answers].
    destruct (replicate (length shuffled) None !! i) as [[c|]|] eqn:E; try reflexivity.
    apply lookup_replicate in E as [E _]. discriminate. }
  split; [reflexivity | split; [exact Hp | split; [reflexivity | split; [exact Hnone |]]]].
  split; [| split; [| split; [reflexivity |]]].
  - unfold correctCount. cbn [updateNavigationButtons feedback].
    now rewrite no_feedback_marked.
  - unfold updateNavigationButtons, answered. cbn [nextDisabled answers currentIndex].
    now rewrite lookup_replicate_2 by assumption.
  - apply (submitBody_unanswered _ _ _ 0%nat); [exact Hlen | apply Hnone].
Qed.

Lemma sumZ_pointwise {A B} (f : A -> Z) (g : B -> Z) (l1 : list A) : forall l2 : list B,
  length l1 = length l2 ->
  (forall i a b, l1 !! i = Some a -> l2 !! i = Some b -> f a = g b) ->
  sumZ (f <$> l1) = sumZ (g <$> l2).
Proof.
  induction l1 as [|a l1 IH]; intros [|b l2] Hlen Hall; try discriminate; [reflexivity |].
  rewrite !fmap_cons. cbn [sumZ]. rewrite (Hall 0%nat a b eq_refl eq_refl). f_equal.
  apply IH; [simpl in Hlen; lia |]. intros i. apply (Hall (S i)).
Qed.

Lemma filter_length_sum {A} (f : A -> bool) (l : list A) :
  Z.of_nat (length (List.filter f l)) = sumZ ((fun x => if f x then 1 else 0) <$> l).
Proof.
  induction l as [|x l IH]; [reflexivity |].
  rewrite fmap_cons. cbn [sumZ List.filter]. destruct (f x); simpl length; lia.
Qed.

Lemma Qeq_bool_inject a b : Qeq_bool (inject_Z a) (inject_Z b) = (a =? b).
Proof. unfold Qeq_bool, inject_Z. simpl. now rewrite !Z.mul_1_r. Qed.

Lemma slice0_take {A} n (l : list A) : exists k, slice0 n l = take k l.
Proof. unfold slice0. destruct (n <? 0); eauto. Qed.

Section Play.

(** The bank of the server, with distinct ids. *)
Variable bank : list Question.
Hypothesis ids_unique : NoDup (id <$> bank).

Lemma served_questions Number random limitParam :
  NoDup (id <$> quizQuestions (handleQuiz bank Number random limitParam)) /\
  forall q, q ∈ quizQuestions (handleQuiz bank Number random limitParam) -> q ∈ bank.
Proof.
  unfold handleQuiz. cbn [quizQuestions].
  destruct (slice0_take (clampQuestionCount bank Number limitParam)
              (shuffleQuestions random bank)) as [k ->].
  pose proof (shuffleQuestions_perm random bank) as Hp.
  split.
  - rewrite fmap_take. eapply sublist_NoDup; [| apply sublist_take]. now rewrite Hp.
  - intros q Hq. rewrite <- Hp. eapply subseteq_take; eassumption.
Qed.

Lemma questionMap_get_own q :
  q ∈ bank -> questionMap_get bank (inject_Z (id q)) = Some q.
Proof.
  intros Hin.
  destruct (questionMap_get_known bank (inject_Z (id q)) q Hin ltac:(reflexivity)) as [q' Hq'].
  rewrite Hq'. apply questionMap_get_Some in Hq' as [Hin' Hk'].
  f_equal. eapply (question_by_id bank ids_unique); [eassumption | eassumption | eassumption | reflexivity].
Qed.

Lemma validRefs_entries (entries : list (Z * nat)) : forall index,
  (forall e, e ∈ entries -> exists q, q ∈ bank /\ id q = e.1) ->
  validRefs bank index (payloadEntry <$> entries) =
  (fun e => (inject_Z e.1, inject_Z (Z.of_nat e.2))) <$> entries.
Proof.
  induction entries as [|e entries IH]; intros index Hall; [reflexivity |].
  rewrite !fmap_cons. cbn [validRefs].
  assert (He : entryRef bank (payloadEntry e) index =
               Some (inject_Z e.1, inject_Z (Z.of_nat e.2))).
  { unfold entryRef, payloadEntry. simpl lookupProp.
    destruct (Hall e ltac:(left)) as (q & Hin & Hid).
    assert (Hex : existsb (fun q0 => Qeq_bool (inject_Z (id q0)) (inject_Z e.1)) bank = true).
    { apply existsb_exists. exists q. split; [now apply list_elem_of_In |].
      rewrite Hid. apply Qeq_bool_refl. }
    now rewrite Hex. }
  rewrite He. f_equal. apply IH. intros e' He'. apply Hall. now right.
Qed.

(** X18.  When the questions of the page are the ones [GET /api/quiz] served
    from a bank with distinct ids, and a click on the next button sets the
    submission off under a name that is not blank, the server accepts the
    request of the page: its score is the number of questions the page marked
    correct, and its total the number of questions of the quiz. *)
Theorem finished_quiz_is_scored_as_shown Number random limitParam stored now s
    playerName totalTime :
  session s ->
  originalQuestions s = quizQuestions (handleQuiz bank Number random limitParam) ->
  snd (advance s) = SubmitAnswers ->
  sanitizeName playerName <> [] ->
  exists body lb,
    submitBody s playerName totalTime = Some body /\
    handleSubmit bank stored (Some body) now =
    (Ok200 (correctCount s) (Z.of_nat (length (questions s))) lb, lb).
Proof.
  intros Hs Hserved Hsubmit Hname.
  destruct (session_coherent s Hs) as (Ha & Hf & Hp & Hagree & Hbefore & _).
  destruct (session_inSession s Hs) as (Ho & Hi & Hn & _).
  destruct (served_questions Number random limitParam) as [Hnd Hbank].
  rewrite <- Hserved, <- Hp in Hnd.
  assert (Hin : forall q, q ∈ questions s -> q ∈ bank).
  { intros q Hq. apply Hbank. rewrite <- Hserved, <- Hp. exact Hq. }
  (* every question has an answer *)
  assert (Hall : forall i, (i < length (questions s))%nat -> is_Some (choiceAt s i)).
  { unfold advance in Hsubmit. destruct (nextDisabled s) eqn:Hd; [discriminate |].
    unfold onNextClick in Hsubmit. destruct (atLast s) eqn:El; [| discriminate].
    intros i Hlt. unfold atLast in El. apply Z.eqb_eq in El.
    destruct (decide (i = currentIndex s)) as [->|Hne].
    - apply answered_choiceAt. symmetry in Hn. now apply negb_false_iff in Hn.
    - apply Hbefore. lia. }
  (* the entries that are sent *)
  unfold submitBody.
  match goal with |- context [mapM ?f _] => set (number := f) end.
  assert (Hsome : is_Some (mapM number (answerPayload s))).
  { apply mapM_is_Some, Forall_forall. intros p Hp'.
    apply list_elem_of_lookup in Hp' as [i Hpi]. rewrite answerPayload_lookup in Hpi.
    destruct (questions s !! i) as [q|] eqn:Hq; [| discriminate].
    simpl in Hpi. injection Hpi as <-. unfold number. simpl.
    destruct (Hall i) as [c Hc]; [now apply lookup_lt_Some in Hq |]. rewrite Hc. eauto. }
  destruct Hsome as [entries Hentries]. rewrite Hentries.
  apply mapM_Some in Hentries.
  assert (Hentry : forall i e, entries !! i = Some e ->
            exists q, questions s !! i = Some q /\ id q = e.1 /\ choiceAt s i = Some e.2).
  { intros i e He.
    destruct (Forall2_lookup_r _ _ _ _ _ Hentries He) as (p & Hpi & Hnum).
    rewrite answerPayload_lookup in Hpi.
    destruct (questions s !! i) as [q|] eqn:Hq; [| discriminate].
    simpl in Hpi. injection Hpi as <-. unfold number in Hnum. simpl in Hnum.
    destruct (choiceAt s i) as [c|]; [| discriminate]. injection Hnum as <-.
    exists q. auto. }
  pose proof (Forall2_length _ _ _ Hentries) as Hlen. rewrite answerPayload_length in Hlen.
  assert (Hknown : forall e, e ∈ entries -> exists q, q ∈ bank /\ id q = e.1).
  { intros e He. apply list_elem_of_lookup in He as [i Hie].
    destruct (Hentry i e Hie) as (q & Hq & Hid & _). exists q. split; [| exact Hid].
    apply Hin. eapply list_elem_of_lookup_2; eassumption. }
  assert (Hids : id <$> questions s = fst <$> entries).
  { apply list_eq. intros i. rewrite !list_lookup_fmap.
    destruct (entries !! i) as [e|] eqn:He.
    - destruct (Hentry i e He) as (q & Hq & Hid & _). rewrite Hq. simpl. now rewrite Hid.
    - apply lookup_ge_None in He. rewrite lookup_ge_None_2 by lia. reflexivity. }
  pose proof (validRefs_entries entries 0 Hknown) as Hrefs.
  match goal with |- context [Some ?b = Some _] => set (body := b) end.
  destruct (submission_scored bank stored body now (payloadEntry <$> entries))
    as [lb Hlb].
  - exact ids_unique.
  - unfold body, storedName, nameArgument. simpl.
    destruct playerName; [contradiction | exact Hname].
  - reflexivity.
  - destruct entries; [| discriminate]. simpl in Hlen.
    destruct (questions s); [simpl in Hi; lia | discriminate].
  - now rewrite Hrefs, !length_fmap.
  - rewrite Hrefs. apply (keyDiffers_by_id fst (fun e => inject_Z (Z.of_nat e.2))).
    now rewrite <- Hids.
  - exists body, lb. split; [reflexivity |]. rewrite Hlb. rewrite length_fmap, <- Hlen.
    assert (Hscore : pointsFrom bank 0 (payloadEntry <$> entries) = correctCount s).
    { rewrite (pointsFrom_refs bank ids_unique), Hrefs. unfold correctCount.
      rewrite filter_length_sum, <- list_fmap_compose.
      apply sumZ_pointwise; [lia |].
      intros i e f He Hfi. destruct (Hentry i e He) as (q & Hq & Hid & Hc).
      specialize (Hagree i q Hq). unfold agreeAt in Hagree. unfold choiceAt in Hc.
      rewrite Hfi in Hagree.
      destruct (answers s !! i) as [[c|]|]; try discriminate. injection Hc as Hc.
      destruct f as [f|]; [| contradiction].
      unfold compose, contribution. cbn [fst snd]. rewrite <- Hid.
      rewrite (questionMap_get_own q) by (apply Hin; eapply list_elem_of_lookup_2; eassumption).
      unfold markedCorrect. rewrite Hagree. unfold statusFor. subst c.
      rewrite Qeq_bool_inject, Z.eqb_sym. now destruct (Z.of_nat e.2 =? answer q). }
    now rewrite Hscore.
Qed.

End Play.

End PageFacts.

(** ** The two versions of the page *)

Module Client2Facts.
Import Client ClientFacts.

Lemma updateNavigationButtons_same s :
  questions s <> [] -> Client2.updateNavigationButtons s = updateNavigationButtons s.
Proof.
  destruct s as [oq qs an fb i nd pd nl]. simpl. intros Hq.
  unfold Client2.updateNavigationButtons. simpl.
  now destruct qs; [contradiction |].
Qed.

Lemma renderQuestion_same s : Client2.renderQuestion s = renderQuestion s.
Proof.
  unfold Client2.renderQuestion, renderQuestion.
  destruct (questions s !! currentIndex s) eqn:E; [| reflexivity].
  apply updateNavigationButtons_same. intros Hq. now rewrite Hq in E.
Qed.

Lemma handleChoiceSelection_same s selectedIndex :
  Client2.handleChoiceSelection s selectedIndex = handleChoiceSelection s selectedIndex.
Proof.
  unfold Client2.handleChoiceSelection, handleChoiceSelection.
  destruct (questions s !! currentIndex s) eqn:E; [| reflexivity].
  cbv zeta. apply updateNavigationButtons_same. cbn [questions].
  intros Hq. now rewrite Hq in E.
Qed.

Lemma advance_same s : Client2.advance s = advance s.
Proof.
  unfold Client2.advance, advance, Client2.onNextClick, onNextClick.
  now rewrite renderQuestion_same.
Qed.

Lemma retreat_same s : Client2.retreat s = retreat s.
Proof.
  unfold Client2.retreat, retreat, Client2.onPrevClick, onPrevClick.
  now rewrite renderQuestion_same.
Qed.

(** X21.  The later version of the page behaves as the first one on every
    event, a restart without loaded questions apart.  There the later version
    disables both buttons, so that no click changes the state, while the
    first version leaves the next button as it was, and a click on it moves
    the current index past the (empty) list of questions. *)
Theorem later_page_guards_the_empty_quiz s e random :
  ((forall r, e = Restart r -> originalQuestions s <> []) ->
   Client2.dispatch s e = dispatch s e) /\
  (originalQuestions s = [] ->
   nextDisabled (Client2.prepareNewQuiz random s) = true /\
   prevDisabled (Client2.prepareNewQuiz random s) = true /\
   Client2.advance (Client2.prepareNewQuiz random s)
     = (Client2.prepareNewQuiz random s, NoEffect) /\
   Client2.retreat (Client2.prepareNewQuiz random s) = Client2.prepareNewQuiz random s /\
   forall choiceIndex,
     Client2.handleChoiceSelection (Client2.prepareNewQuiz random s) choiceIndex
     = Client2.prepareNewQuiz random s) /\
  (originalQuestions s = [] -> nextDisabled s = false ->
   questions (fst (advance (prepareNewQuiz random s))) = [] /\
   currentIndex (fst (advance (prepareNewQuiz random s))) = 1%nat).
Proof.
  split; [| split].
  - intros Hr. destruct e as [choiceIndex | | | r]; simpl.
    + apply handleChoiceSelection_same.
    + now rewrite advance_same.
    + apply retreat_same.
    + specialize (Hr r eq_refl). unfold Client2.prepareNewQuiz, prepareNewQuiz.
      destruct (originalQuestions s); [contradiction |]. apply renderQuestion_same.
  - intros Ho. unfold Client2.prepareNewQuiz. rewrite Ho.
    repeat split.
  - intros Ho Hd. unfold prepareNewQuiz. rewrite Ho.
    unfold advance. cbn [nextDisabled]. rewrite Hd. split; reflexivity.
Qed.

End Client2Facts.

(** ** The timer text *)

Lemma digitsValue_snoc text c :
  digitsValue (text ++ [c]) = 10 * digitsValue text + (Z.of_N c - 48).
Proof. unfold digitsValue. now rewrite fold_left_app. Qed.

Lemma decimalDigits_spec fuel : forall n,
  0 <= n < 2 ^ Z.of_nat fuel ->
  digitsValue (decimalDigits fuel n) = n /\ Forall isDigit (decimalDigits fuel n).
Proof.
  induction fuel as [|fuel IH]; intros n Hn.
  - simpl in Hn. assert (n = 0) as -> by lia. split; [reflexivity | constructor].
  - cbn [decimalDigits].
    assert (Hmod : 0 <= n mod 10 < 10) by (apply Z.mod_pos_bound; lia).
    assert (Hlast : isDigit (48 + Z.to_N (n mod 10))%N) by (unfold isDigit; lia).
    rewrite digitsValue_snoc.
    destruct (Z.ltb_spec n 10) as [Hlt|Hge].
    + split; [| simpl; constructor; [exact Hlast | constructor]].
      rewrite Z.mod_small by lia. unfold digitsValue. simpl. lia.
    + rewrite Nat2Z.inj_succ, Z.pow_succ_r in Hn by lia.
      destruct (IH (n / 10)) as [Hv Hd].
      { split; [apply Z.div_pos; lia |].
        apply Z.div_lt_upper_bound; lia. }
      split.
      * rewrite Hv. pose proof (Z.div_mod n 10 ltac:(lia)). lia.
      * apply Forall_app. split; [exact Hd | constructor; [exact Hlast | constructor]].
Qed.

Lemma numberToString_spec n :
  0 <= n ->
  digitsValue (numberToString n) = n /\ Forall isDigit (numberToString n).
Proof.
  intros Hn. unfold numberToString. apply decimalDigits_spec.
  split; [exact Hn |]. rewrite Nat2Z.inj_succ, Z2Nat.id by apply Z.log2_nonneg.
  destruct (Z.eq_dec n 0) as [->|Hne]; [reflexivity |].
  apply Z.log2_spec. lia.
Qed.

Lemma numberToString_small n : 0 <= n < 10 -> numberToString n = [(48 + Z.to_N n)%N].
Proof.
  intros Hn. unfold numberToString. cbn [decimalDigits].
  destruct (Z.ltb_spec n 10); [| lia]. now rewrite Z.mod_small by lia.
Qed.

Lemma numberToString_two n : 10 <= n < 100 -> length (numberToString n) = 2%nat.
Proof.
  intros Hn. unfold numberToString.
  assert (Hlog : 3 <= Z.log2 n).
  { change 3 with (Z.log2 8). apply Z.log2_le_mono. lia. }
  destruct (Z.to_nat (Z.log2 n)) as [|fuel] eqn:E; [lia |].
  cbn [decimalDigits].
  destruct (Z.ltb_spec n 10); [lia |].
  destruct (Z.ltb_spec (n / 10) 10) as [_|Hge].
  - reflexivity.
  - assert (n / 10 < 10) by (apply Z.div_lt_upper_bound; lia). lia.
Qed.

Lemma padStart2_two n : 0 <= n < 100 -> length (padStart2 (numberToString n)) = 2%nat.
Proof.
  intros Hn. unfold padStart2. rewrite length_app, length_replicate.
  destruct (Z_lt_ge_dec n 10).
  - now rewrite numberToString_small by lia.
  - now rewrite numberToString_two by lia.
Qed.

Lemma digitsValue_zeros k text :
  digitsValue (replicate k 48%N ++ text) = digitsValue text.
Proof.
  unfold digitsValue. rewrite fold_left_app.
  replace (fold_left (fun acc c => 10 * acc + (Z.of_N c - 48)) (replicate k 48%N) 0) with 0;
    [reflexivity |].
  induction k as [|k IH]; [reflexivity | exact IH].
Qed.

Lemma padStart2_spec n :
  0 <= n ->
  digitsValue (padStart2 (numberToString n)) = n /\
  Forall isDigit (padStart2 (numberToString n)).
Proof.
  intros Hn. destruct (numberToString_spec n Hn) as [Hv Hd]. unfold padStart2. split.
  - now rewrite digitsValue_zeros.
  - apply Forall_app. split; [| exact Hd].
    apply Forall_forall. intros c Hc. apply elem_of_replicate in Hc as [-> _].
    unfold isDigit. lia.
Qed.

(** Texts of digits around one colon are read in one way only. *)
Lemma colon_splits_once (u1 u2 v1 v2 : jsString) :
  Forall isDigit u1 -> Forall isDigit u2 ->
  u1 ++ 58%N :: v1 = u2 ++ 58%N :: v2 -> u1 = u2 /\ v1 = v2.
Proof.
  intros H1. revert u2. induction H1 as [|c u1 Hc _ IH]; intros u2 H2 Heq.
  - destruct H2 as [|d u2 Hd _]; simpl in Heq; [now injection Heq |].
    injection Heq as <- _. unfold isDigit in Hd. lia.
  - destruct H2 as [|d u2 Hd H2]; simpl in Heq.
    + injection Heq as -> _. unfold isDigit in Hc. lia.
    + injection Heq as -> Heq. destruct (IH u2 H2 Heq) as [-> ->]. auto.
Qed.

Lemma Qfloor_below a n : (a < inject_Z n)%Q -> Qfloor a < n.
Proof.
  intros Ha. pose proof (Qfloor_le a) as Hf. rewrite Zlt_Qlt.
  eapply Qle_lt_trans; eassumption.
Qed.

(** X22.  The timer text shows the elapsed whole seconds and nothing else:
    below one second it is 00:00, below 100 minutes it has exactly five
    code units, and two elapsed times (in the range where numbers print as
    plain digits) get the same text exactly when their whole seconds,
    negative ones counted as 0, are the same. *)
Theorem formatTime_shows_the_whole_seconds a b :
  ((a < 1)%Q -> formatTime a = str "00:00") /\
  ((a < 6000)%Q -> length (formatTime a) = 5%nat) /\
  ((a < inject_Z (10 ^ 21))%Q -> (b < inject_Z (10 ^ 21))%Q ->
   (formatTime a = formatTime b <-> Z.max 0 (Qfloor a) = Z.max 0 (Qfloor b))).
Proof.
  split; [| split; [| intros _ _]].
  - intros Ha. apply (Qfloor_below a 1) in Ha. unfold formatTime.
    now replace (Z.max 0 (Qfloor a)) with 0 by lia.
  - intros Ha. apply (Qfloor_below a 6000) in Ha. unfold formatTime. cbv zeta.
    set (total := Z.max 0 (Qfloor a)).
    assert (Ht : 0 <= total < 6000) by (unfold total; lia).
    rewrite !length_app, !padStart2_two; [reflexivity | |].
    + pose proof (Z.mod_pos_bound total 60 ltac:(lia)). lia.
    + split; [apply Z.div_pos; lia | apply Z.div_lt_upper_bound; lia].
  - split; [| intros H; unfold formatTime; now rewrite H].
    unfold formatTime. cbv zeta.
    set (ta := Z.max 0 (Qfloor a)). set (tb := Z.max 0 (Qfloor b)).
    assert (Ha : 0 <= ta) by (unfold ta; lia).
    assert (Hb : 0 <= tb) by (unfold tb; lia).
    intros Heq.
    destruct (padStart2_spec (ta / 60) ltac:(apply Z.div_pos; lia)) as [Hma Hda].
    destruct (padStart2_spec (tb / 60) ltac:(apply Z.div_pos; lia)) as [Hmb Hdb].
    destruct (padStart2_spec (ta mod 60) ltac:(apply Z.mod_pos_bound; lia)) as [Hsa _].
    destruct (padStart2_spec (tb mod 60) ltac:(apply Z.mod_pos_bound; lia)) as [Hsb _].
    destruct (colon_splits_once _ _ _ _ Hda Hdb Heq) as [Hm Hs].
    rewrite Hm in Hma. rewrite Hs in Hsa.
    pose proof (Z.div_mod ta 60 ltac:(lia)). pose proof (Z.div_mod tb 60 ltac:(lia)).
    lia.
Qed.

(** ** The further properties on sample data *)


Lemma unusable_time_is_no_time_witness :
  lookupProp namedAnswers "totalTime" = None /\
  (forall t, JNum (-1) = JNum t -> (t < 0)%Q) /\
  handleSubmit bank3 [] (Some (JObj (namedAnswers ++ [("totalTime"%string, JNum (-1))]))) 7 =
  handleSubmit bank3 [] (Some (JObj namedAnswers)) 7.
Proof.
  assert (Habsent : lookupProp namedAnswers "totalTime" = None) by reflexivity.
  assert (Hbad : forall t, JNum (-1) = JNum t -> (t < 0)%Q)
    by (intros t [= <-]; reflexivity).
  split; [exact Habsent | split; [exact Hbad |]].
  exact (unusable_time_is_no_time bank3 [] namedAnswers (JNum (-1)) 7 Habsent Hbad).
Defined.

Lemma score_within_total_witness :
  handleSubmit bank3 [] (Some twoAnswersB) 7
    = (Ok200 1 2 [entry "B" 1 2 None 7], [entry "B" 1 2 None 7]) /\
  (0 <= 1 <= 2 /\ 1 <= 2 <= Z.of_nat (length bank3)).
Proof.
  assert (Hrun : handleSubmit bank3 [] (Some twoAnswersB) 7
                 = (Ok200 1 2 [entry "B" 1 2 None 7], [entry "B" 1 2 None 7]))
    by by_computation.
  split; [exact Hrun |].
  exact (score_within_total bank3 [] (Some twoAnswersB) 7 1 2
           [entry "B" 1 2 None 7] [entry "B" 1 2 None 7] Hrun).
Defined.

Lemma names_stay_unique_witness :
  NoDup (name <$> boardA) /\
  NoDup (name <$> runSubmissions bank3 boardA sampleRequests).
Proof.
  assert (Hnd : NoDup (name <$> boardA)) by by_decision.
  split; [exact Hnd |].
  exact (names_stay_unique bank3 boardA sampleRequests Hnd).
Defined.

Lemma stored_scores_never_drop_witness :
  NoDup (name <$> boardA) /\
  entryFasterA ∈ snd (handleSubmit bank3 boardA (Some fasterA) 9) /\
  ((entryFasterA ∈ boardA \/
    exists payload, Some fasterA = Some payload /\
                    name entryFasterA = storedName payload /\ completedAt entryFasterA = 9) /\
   forall e, e ∈ boardA -> name e = name entryFasterA -> score e <= score entryFasterA).
Proof.
  assert (Hnd : NoDup (name <$> boardA)) by by_decision.
  assert (Hin : entryFasterA ∈ snd (handleSubmit bank3 boardA (Some fasterA) 9)).
  { replace (snd (handleSubmit bank3 boardA (Some fasterA) 9)) with [entryFasterA]
      by by_computation. left. }
  split; [exact Hnd | split; [exact Hin |]].
  exact (stored_scores_never_drop bank3 boardA (Some fasterA) 9 entryFasterA Hnd Hin).
Defined.

Lemma entries_stay_well_formed_witness :
  Forall wellFormed boardA /\
  Forall wellFormed (runSubmissions bank3 boardA sampleRequests).
Proof.
  assert (Hw : Forall wellFormed boardA).
  { repeat constructor; simpl; try lia; try discriminate. }
  split; [exact Hw |].
  exact (entries_stay_well_formed bank3 boardA sampleRequests Hw).
Defined.

Lemma full_board_turns_away_lower_witness :
  conforming fullBoard /\
  length fullBoard = 25%nat /\
  (forall e, e ∈ fullBoard -> 0 < score e) /\
  handleSubmit bank1 fullBoard (Some lowPayload) 100 = (Ok200 0 1 fullBoard, fullBoard) /\
  (fullBoard = fullBoard /\ fullBoard = fullBoard).
Proof.
  assert (Hconf : conforming fullBoard).
  { replace fullBoard with (sortLeaderboard fullBoard) by by_computation.
    apply sortLeaderboard_conforming. }
  assert (Hfull : length fullBoard = 25%nat) by reflexivity.
  assert (Hhigher : forall e, e ∈ fullBoard -> 0 < score e).
  { intros e He. apply list_elem_of_In in He. unfold fullBoard in He.
    apply in_map_iff in He as (k & <- & _). simpl. lia. }
  assert (Hrun : handleSubmit bank1 fullBoard (Some lowPayload) 100
                 = (Ok200 0 1 fullBoard, fullBoard)) by by_computation.
  split; [exact Hconf | split; [exact Hfull | split; [exact Hhigher | split; [exact Hrun |]]]].
  exact (full_board_turns_away_lower bank1 fullBoard (Some lowPayload) 100 0 1
           fullBoard fullBoard Hconf Hfull Hhigher Hrun).
Defined.

Lemma positional_answers_score_as_before_witness :
  NoDup (id <$> bank3) /\
  storedName positionalPayload <> [] /\
  getProp positionalPayload "answers" = Some (Some (JArr (JNum <$> positionalNumbers))) /\
  positionalNumbers <> [] /\
  legacyResult bank3 (Some (JArr (JNum <$> positionalNumbers))) = Some (2, 3) /\
  exists lb, handleSubmit bank3 [] (Some positionalPayload) 7 = (Ok200 2 3 lb, lb).
Proof.
  assert (Hids : NoDup (id <$> bank3)) by by_decision.
  assert (Hname : storedName positionalPayload <> []) by (vm_compute; discriminate).
  assert (Hans : getProp positionalPayload "answers"
                 = Some (Some (JArr (JNum <$> positionalNumbers)))) by reflexivity.
  assert (Hne : positionalNumbers <> []) by discriminate.
  assert (Hleg : legacyResult bank3 (Some (JArr (JNum <$> positionalNumbers))) = Some (2, 3))
    by by_computation.
  split; [exact Hids | split; [exact Hname | split; [exact Hans | split; [exact Hne |]]]].
  split; [exact Hleg |].
  exact (positional_answers_score_as_before bank3 [] positionalPayload 7 positionalNumbers
           2 3 Hids Hname Hans Hne Hleg).
Defined.

Lemma session_stays_coherent_witness :
  Client.session finishedQuiz /\ Page.coherent finishedQuiz /\ Client.inSession finishedQuiz.
Proof.
  assert (Hs : Client.session finishedQuiz).
  { unfold finishedQuiz. do 3 apply Client.session_step.
    apply Client.session_start. vm_compute. discriminate. }
  split; [exact Hs |].
  exact (PageFacts.session_stays_coherent finishedQuiz Hs).
Defined.

Lemma finished_quiz_is_scored_as_shown_witness :
  NoDup (id <$> bank3) /\
  Client.session finishedQuiz /\
  Client.originalQuestions finishedQuiz
    = quizQuestions (handleQuiz bank3 sampleNumber sampleRandom (Some (str "2.5"))) /\
  snd (Client.advance finishedQuiz) = Client.SubmitAnswers /\
  sanitizeName (str "Ada") <> [] /\
  exists body lb,
    Page.submitBody finishedQuiz (str "Ada") 12 = Some body /\
    handleSubmit bank3 [] (Some body) 7 =
    (Ok200 (Page.correctCount finishedQuiz)
       (Z.of_nat (length (Client.questions finishedQuiz))) lb, lb).
Proof.
  assert (Hids : NoDup (id <$> bank3)) by by_decision.
  assert (Hs : Client.session finishedQuiz).
  { unfold finishedQuiz. do 3 apply Client.session_step.
    apply Client.session_start. vm_compute. discriminate. }
  assert (Hserved : Client.originalQuestions finishedQuiz
                    = quizQuestions (handleQuiz bank3 sampleNumber sampleRandom (Some (str "2.5"))))
    by by_computation.
  assert (Hsubmit : snd (Client.advance finishedQuiz) = Client.SubmitAnswers) by by_computation.
  assert (Hname : sanitizeName (str "Ada") <> []) by (vm_compute; discriminate).
  split; [exact Hids | split; [exact Hs | split; [exact Hserved | split; [exact Hsubmit |]]]].
  split; [exact Hname |].
  exact (PageFacts.finished_quiz_is_scored_as_shown bank3 Hids sampleNumber sampleRandom
           (Some (str "2.5")) [] 7 finishedQuiz (str "Ada") 12 Hs Hserved Hsubmit Hname).
Defined.

Lemma back_and_forth_witness :
  Client.session secondQuestion /\
  (Client.nextDisabled secondQuestion = false -> Client.atLast secondQuestion = false ->
   Client.retreat (fst (Client.advance secondQuestion)) = secondQuestion) /\
  (Client.prevDisabled secondQuestion = false ->
   fst (Client.advance (Client.retreat secondQuestion)) = secondQuestion).
Proof.
  assert (Hs : Client.session secondQuestion).
  { unfold secondQuestion. do 2 apply Client.session_step.
    apply Client.session_start. vm_compute. discriminate. }
  split; [exact Hs |].
  exact (PageFacts.back_and_forth secondQuestion Hs).
Defined.

Lemma restart_gives_a_fresh_quiz_witness :
  Client.originalQuestions finishedQuiz <> [] /\
  (Client.originalQuestions (Client.prepareNewQuiz sampleRandom finishedQuiz)
     = Client.originalQuestions finishedQuiz /\
   Permutation (Client.questions (Client.prepareNewQuiz sampleRandom finishedQuiz))
     (Client.originalQuestions finishedQuiz) /\
   Client.currentIndex (Client.prepareNewQuiz sampleRandom finishedQuiz) = 0%nat /\
   (forall i, Page.choiceAt (Client.prepareNewQuiz sampleRandom finishedQuiz) i = None) /\
   Page.correctCount (Client.prepareNewQuiz sampleRandom finishedQuiz) = 0 /\
   Client.nextDisabled (Client.prepareNewQuiz sampleRandom finishedQuiz) = true /\
   Client.prevDisabled (Client.prepareNewQuiz sampleRandom finishedQuiz) = true /\
   Page.submitBody (Client.prepareNewQuiz sampleRandom finishedQuiz) (str "Ada") 12 = None).
Proof.
  assert (Ho : Client.originalQuestions finishedQuiz <> []) by (vm_compute; discriminate).
  split; [exact Ho |].
  exact (PageFacts.restart_gives_a_fresh_quiz sampleRandom finishedQuiz (str "Ada") 12 Ho).
Defined.
